(** * chess-cli: move generation for a single piece on an empty board

    A shallow embedding of the TypeScript sources
    (models/Position, strategies/*, factories/MovementStrategyFactory,
    utils/PositionSorter, services/ChessMovementService) and the
    properties of the specification that are checked against them. *)

From Stdlib Require Import ZArith List Bool Lia String Ascii DecimalString.
From Stdlib Require Import Sorted Permutation.
Import ListNotations.
Local Open Scope Z_scope.

(** ** JavaScript values used by the program *)

Module Js.

(** A JavaScript string is a sequence of UTF-16 code units. *)
Definition str := list Z.

(** String literals of the sources, written as Rocq strings. *)
Definition lit (s : string) : str :=
  map (fun c => Z.of_nat (nat_of_ascii c)) (list_ascii_of_string s).

Definition isAsciiUnit (c : Z) : bool := (0 <=? c) && (c <? 128).

Definition isAscii (s : str) : bool := forallb isAsciiUnit s.

(** [String.prototype.toUpperCase].  The mapping is the one of ASCII:
    a-z go to A-Z and every other code unit is kept.  This is what
    JavaScript does on strings whose code units are all below 128; the
    statements below that depend on it are restricted to such strings. *)
Definition upperUnit (c : Z) : Z :=
  if (97 <=? c) && (c <=? 122) then c - 32 else c.

Definition toUpperCase (s : str) : str := map upperUnit s.

(** [s.charAt(i)]: the one-unit string at [i], or the empty string. *)
Definition charAt (s : str) (i : nat) : str :=
  match nth_error s i with
  | Some c => [c]
  | None => []
  end.

(** [s.charCodeAt(0)]; [None] stands for NaN (empty string). *)
Definition charCodeAt0 (s : str) : option Z :=
  match s with
  | [] => None
  | c :: _ => Some c
  end.

(** [String.fromCharCode(n)] for an integer [n]: ToUint16 wraps. *)
Definition fromCharCode (n : Z) : str := [n mod 65536].

(** [a <= b] on strings: lexicographic on code units. *)
Fixpoint leStr (a b : str) : bool :=
  match a, b with
  | [], _ => true
  | _ :: _, [] => false
  | x :: a', y :: b' =>
      if x <? y then true else if x =? y then leStr a' b' else false
  end.

(** [a.localeCompare(b)], as a sign.  Modelled by the code-unit order,
    which agrees with every locale's collation on strings made of
    upper-case ASCII letters; the sorter only ever sees such strings. *)
Fixpoint localeCompare (a b : str) : Z :=
  match a, b with
  | [], [] => 0
  | [], _ :: _ => -1
  | _ :: _, [] => 1
  | x :: a', y :: b' =>
      if x <? y then -1 else if y <? x then 1 else localeCompare a' b'
  end.

(** The numbers that reach the rank checks: an integral value, a finite
    value strictly between two consecutive integers, NaN, or an
    infinity. *)
Inductive number :=
| Int (z : Z)
| Frac (below : Z)
| NaN
| Infinity (negative : bool).

Definition isInteger (n : number) : bool :=
  match n with
  | Int _ => true
  | _ => false
  end.

(** [n >= k] and [n <= k] for an integer literal [k]. *)
Definition geNum (n : number) (k : Z) : bool :=
  match n with
  | Int z => k <=? z
  | Frac b => k <=? b
  | NaN => false
  | Infinity negative => negb negative
  end.

Definition leNum (n : number) (k : Z) : bool :=
  match n with
  | Int z => z <=? k
  | Frac b => b <? k
  | NaN => false
  | Infinity negative => negative
  end.

(** Number to string in a template literal, for an integral value
    (in decimal digits, as JavaScript prints integers below 10^21). *)
Definition intToString (z : Z) : str :=
  lit (NilZero.string_of_int (Z.to_int z)).

(** White space and line terminators skipped by [parseInt]. *)
Definition isWhiteSpace (c : Z) : bool :=
  existsb (Z.eqb c)
    [9; 10; 11; 12; 13; 32; 160; 5760; 8232; 8233; 8239; 8287; 12288; 65279]
  || ((8192 <=? c) && (c <=? 8202)).

Fixpoint skipWhiteSpace (s : str) : str :=
  match s with
  | c :: s' => if isWhiteSpace c then skipWhiteSpace s' else s
  | [] => []
  end.

Definition isDigit (c : Z) : bool := (48 <=? c) && (c <=? 57).

(** Value of the longest prefix of decimal digits, [None] if empty. *)
Fixpoint digitsValue (acc : option Z) (s : str) : option Z :=
  match s with
  | c :: s' =>
      if isDigit c
      then digitsValue (Some (10 * match acc with Some a => a | None => 0 end
                              + (c - 48))) s'
      else acc
  | [] => acc
  end.

(** [parseInt(s, 10)]. *)
Definition parseInt (s : str) : number :=
  let s1 := skipWhiteSpace s in
  let '(sign, s2) :=
    match s1 with
    | c :: r =>
        if c =? 45 then (-1, r) else if c =? 43 then (1, r) else (1, s1)
    | [] => (1, s1)
    end in
  match digitsValue None s2 with
  | Some v => Int (sign * v)
  | None => NaN
  end.

(** [String.prototype.toLowerCase], on ASCII as [toUpperCase]. *)
Definition lowerUnit (c : Z) : Z :=
  if (65 <=? c) && (c <=? 90) then c + 32 else c.

Definition toLowerCase (s : str) : str := map lowerUnit s.

(** [s.trim()]: white space and line terminators removed at both ends. *)
Definition trim (s : str) : str :=
  rev (skipWhiteSpace (rev (skipWhiteSpace s))).

(** [s.slice(1)]. *)
Definition slice1 (s : str) : str := List.tl s.

(** [s.split(sep)] for a separator of one code unit; the empty string
    gives one empty part. *)
Fixpoint split (sep : Z) (s : str) : list str :=
  match s with
  | [] => [[]]
  | c :: s' =>
      if c =? sep then [] :: split sep s'
      else match split sep s' with
           | part :: parts => (c :: part) :: parts
           | [] => [[c]]
           end
  end.

(** [parts.join(sep)]. *)
Fixpoint join (sep : str) (parts : list str) : str :=
  match parts with
  | [] => []
  | [part] => part
  | part :: parts' => part ++ sep ++ join sep parts'
  end.

End Js.

Import Js.

(** ** Errors

    Every failure of the program is a JavaScript [Error] carrying a
    message; a constructor stands for a message template and keeps the
    value interpolated in it. *)

Inductive error :=
| InvalidNotation (notation : str)
    (* Invalid notation: ${notation}. Expected format like 'A1' or 'H8'. *)
| InvalidFile (file : str)
    (* Invalid file: ${file}. Must be A-H. *)
| InvalidRank (rank : number)
    (* Invalid rank: ${rank}. Must be 1-8. *)
| NoMovementStrategy (pieceType : str)
    (* No movement strategy found for piece type: ${pieceType} *)
| FailedToCalculateMoves (cause : error).
    (* Failed to calculate moves: ${cause.message} *)

(** A call either returns or throws. *)
Inductive result (A : Type) :=
| Ok (a : A)
| Throw (e : error).

Arguments Ok {A} a.
Arguments Throw {A} e.

Definition bind {A B : Type} (r : result A) (k : A -> result B) : result B :=
  match r with
  | Ok a => k a
  | Throw e => Throw e
  end.

(** A loop of the sources is run with a bound on its iterations:
    [None] means that the bound was reached before the loop ended. *)
Definition run (A : Type) := option (result A).

Definition runBind {A B : Type} (r : run A) (k : A -> run B) : run B :=
  match r with
  | Some (Ok a) => k a
  | Some (Throw e) => Some (Throw e)
  | None => None
  end.

Notation "x <- r ;; k" := (runBind r (fun x => k))
  (at level 61, r at next level, right associativity).

(** ** models/Position *)

Module Position.

Record t := mk { _file : str; _rank : Z }.

Definition isValidFile (file : str) : bool :=
  let upperFile := toUpperCase file in
  leStr (lit "A") upperFile && leStr upperFile (lit "H").

Definition isValidRank (rank : number) : bool :=
  isInteger rank && geNum rank 1 && leNum rank 8.

Definition validateFile (file : str) : result unit :=
  if negb (isValidFile file) then Throw (InvalidFile file) else Ok tt.

Definition validateRank (rank : number) : result unit :=
  if negb (isValidRank rank) then Throw (InvalidRank rank) else Ok tt.

(** [new Position(file, rank)].  The rank that is stored has passed
    [Number.isInteger], so the field holds an integer. *)
Definition constructor (file : str) (rank : number) : result t :=
  bind (validateFile file) (fun _ =>
  bind (validateRank rank) (fun _ =>
  match rank with
  | Int z => Ok {| _file := toUpperCase file; _rank := z |}
  | _ => Throw (InvalidRank rank)
  end)).

Definition fromNotation (notation : str) : result t :=
  if (match notation with [] => true | _ => false end)
     || negb (Nat.eqb (List.length notation) 2)
  then Throw (InvalidNotation notation)
  else
    let file := toUpperCase (charAt notation 0) in
    let rank := parseInt (charAt notation 1) in
    constructor file rank.

(** [fromCoordinates] for an integer file index.  The sum is the exact
    one, which is the sum the code computes as long as the index and
    the sum are at most 2^53 in absolute value. *)
Definition fromCoordinates (fileIndex : Z) (rank : number) : result t :=
  let file := fromCharCode (65 + fileIndex) in
  constructor file rank.

Definition file (p : t) : str := _file p.

Definition rank (p : t) : Z := _rank p.

(** [None] is NaN: [charCodeAt(0)] of an empty string. *)
Definition fileIndex (p : t) : option Z :=
  option_map (fun c => c - 65) (charCodeAt0 (_file p)).

Definition toNotation (p : t) : str := _file p ++ intToString (_rank p).

Definition isValid (p : t) : bool :=
  isValidFile (_file p) && isValidRank (Int (_rank p)).

Definition eqStr (a b : str) : bool :=
  if list_eq_dec Z.eq_dec a b then true else false.

Definition equals (p other : t) : bool :=
  eqStr (_file p) (_file other) && (_rank p =? _rank other).

(** [offset] returns [null] ([None]) or a position, and could throw
    through [fromCoordinates].  With a NaN file index every comparison
    on it is false, and [String.fromCharCode(NaN)] is the code unit 0. *)
Definition offset (p : t) (fileOffset rankOffset : Z) : result (option t) :=
  let newRank := _rank p + rankOffset in
  match fileIndex p with
  | Some index =>
      let newFileIndex := index + fileOffset in
      if (newFileIndex <? 0) || (newFileIndex >? 7)
         || (newRank <? 1) || (newRank >? 8)
      then Ok None
      else bind (fromCoordinates newFileIndex (Int newRank))
                (fun q => Ok (Some q))
  | None =>
      if (newRank <? 1) || (newRank >? 8)
      then Ok None
      else bind (constructor (fromCharCode 0) (Int newRank))
                (fun q => Ok (Some q))
  end.

Definition toString (p : t) : str := toNotation p.

End Position.

(** ** models/PieceType

    A TypeScript string enum: at run time a piece type is the string
    it is declared with, and a [Map] keyed by it can miss. *)

Module PieceType.

Definition t := str.

Definition PAWN : t := lit "Pawn".
Definition KING : t := lit "King".
Definition QUEEN : t := lit "Queen".

End PieceType.

(** ** strategies/MovementStrategy *)

(** The interface [MovementStrategy].  The first argument bounds the
    iterations of each ray loop run by the call. *)
Record MovementStrategy := {
  calculateValidMoves : nat -> Position.t -> run (list Position.t)
}.

Module BaseMovementStrategy.

(** The [while] loop of [generateMovesInDirection], from the state
    [(moves, steps, currentPos)]; [maxSteps = None] is [undefined]. *)
Fixpoint loop (fuel : nat) (fileDirection rankDirection : Z)
  (maxSteps : option Z) (moves : list Position.t) (steps : Z)
  (currentPos : Position.t) : run (list Position.t) :=
  match fuel with
  | O => None
  | S fuel' =>
      if match maxSteps with
         | None => true
         | Some m => steps <? m
         end
      then
        match Position.offset currentPos fileDirection rankDirection with
        | Throw e => Some (Throw e)
        | Ok None => Some (Ok moves)
        | Ok (Some nextPos) =>
            loop fuel' fileDirection rankDirection maxSteps
                 (moves ++ [nextPos]) (steps + 1) nextPos
        end
      else Some (Ok moves)
  end.

Definition generateMovesInDirection (fuel : nat) (position : Position.t)
  (fileDirection rankDirection : Z) (maxSteps : option Z)
  : run (list Position.t) :=
  loop fuel fileDirection rankDirection maxSteps [] 0 position.

Definition directions : list (Z * Z) :=
  [ (-1, -1); (-1, 0); (-1, 1);
    (0, -1);           (0, 1);
    (1, -1);  (1, 0);  (1, 1) ].

(** The [for ... of directions] loop, from the state [allMoves]. *)
Fixpoint forDirections (fuel : nat) (position : Position.t)
  (maxSteps : option Z) (ds : list (Z * Z)) (allMoves : list Position.t)
  : run (list Position.t) :=
  match ds with
  | [] => Some (Ok allMoves)
  | (fileDir, rankDir) :: ds' =>
      movesInDirection <-
        generateMovesInDirection fuel position fileDir rankDir maxSteps ;;
      forDirections fuel position maxSteps ds' (allMoves ++ movesInDirection)
  end.

Definition generateMovesInAllDirections (fuel : nat) (position : Position.t)
  (maxSteps : option Z) : run (list Position.t) :=
  forDirections fuel position maxSteps directions [].

End BaseMovementStrategy.

(** ** strategies/PawnMovementStrategy, KingMovementStrategy,
       QueenMovementStrategy *)

Definition PawnMovementStrategy : MovementStrategy :=
  {| calculateValidMoves := fun _ position =>
       match Position.offset position 0 1 with
       | Throw e => Some (Throw e)
       | Ok (Some forwardMove) => Some (Ok ([] ++ [forwardMove]))
       | Ok None => Some (Ok [])
       end |}.

Definition KingMovementStrategy : MovementStrategy :=
  {| calculateValidMoves := fun fuel position =>
       BaseMovementStrategy.generateMovesInAllDirections fuel position
         (Some 1) |}.

Definition QueenMovementStrategy : MovementStrategy :=
  {| calculateValidMoves := fun fuel position =>
       BaseMovementStrategy.generateMovesInAllDirections fuel position
         None |}.

(** ** factories/MovementStrategyFactory *)

Module MovementStrategyFactory.

(** The [Map] from piece type to strategy creator, in insertion order. *)
Definition strategyMap : list (PieceType.t * (unit -> MovementStrategy)) :=
  [ (PieceType.PAWN, fun _ => PawnMovementStrategy);
    (PieceType.KING, fun _ => KingMovementStrategy);
    (PieceType.QUEEN, fun _ => QueenMovementStrategy) ].

Fixpoint get {V : Type} (m : list (PieceType.t * V)) (key : PieceType.t)
  : option V :=
  match m with
  | [] => None
  | (k, v) :: m' => if Position.eqStr k key then Some v else get m' key
  end.

Definition createStrategy (pieceType : PieceType.t)
  : result MovementStrategy :=
  match get strategyMap pieceType with
  | None => Throw (NoMovementStrategy pieceType)
  | Some strategyCreator => Ok (strategyCreator tt)
  end.

Definition hasStrategy (pieceType : PieceType.t) : bool :=
  match get strategyMap pieceType with
  | None => false
  | Some _ => true
  end.

Definition getSupportedPieceTypes : list PieceType.t := map fst strategyMap.

End MovementStrategyFactory.

(** ** utils/PositionSorter *)

Module PositionSorter.

(** The comparator passed to [Array.prototype.sort]. *)
Definition compare (a b : Position.t) : Z :=
  let fileComparison :=
    localeCompare (Position.file a) (Position.file b) in
  if negb (fileComparison =? 0) then fileComparison
  else Position.rank a - Position.rank b.

(** [Array.prototype.sort] is stable and orders by the comparator; with
    a consistent comparator that fixes its result, which is computed
    here by insertion: an element goes before the first element that
    does not compare below it. *)
Fixpoint insert (x : Position.t) (l : list Position.t) : list Position.t :=
  match l with
  | [] => [x]
  | y :: l' => if compare x y <=? 0 then x :: l else y :: insert x l'
  end.

Definition sort (positions : list Position.t) : list Position.t :=
  fold_right insert [] positions.

(** [array.findIndex(pred)]: the first index that satisfies, or -1. *)
Fixpoint findIndex {A : Type} (pred : A -> bool) (array : list A) : Z :=
  match array with
  | [] => -1
  | x :: array' =>
      if pred x then 0
      else let i := findIndex pred array' in
           if i <? 0 then -1 else i + 1
  end.

(** [array.filter((element, index) => ...)] from position [index]. *)
Fixpoint filterFrom {A : Type} (keep : A -> Z -> bool) (index : Z)
  (array : list A) : list A :=
  match array with
  | [] => []
  | x :: array' =>
      if keep x index then x :: filterFrom keep (index + 1) array'
      else filterFrom keep (index + 1) array'
  end.

Definition sortAndDeduplicate (positions : list Position.t)
  : list Position.t :=
  let uniquePositions :=
    filterFrom
      (fun position index =>
         findIndex (fun p => Position.equals p position) positions =? index)
      0 positions in
  sort uniquePositions.

(** [toOutputString]: sorted, printed and joined by a comma and a
    space. *)
Definition toOutputString (positions : list Position.t) : str :=
  let sortedPositions := sort positions in
  join (lit ", ") (map Position.toNotation sortedPositions).

End PositionSorter.

(** ** services/ChessMovementService *)

Module ChessMovementService.

(** The body of the [try] block of [calculateValidMoves]. *)
Definition tryBlock (fuel : nat) (pieceType : PieceType.t)
  (position : Position.t) : run (list Position.t) :=
  movementStrategy <-
    Some (MovementStrategyFactory.createStrategy pieceType) ;;
  validMoves <- calculateValidMoves movementStrategy fuel position ;;
  Some (Ok (PositionSorter.sortAndDeduplicate validMoves)).

(** The promise returned by [calculateValidMoves]: resolved ([Ok]) or
    rejected ([Throw]); the [catch] clause raises a new error built
    from the message of the one caught. *)
Definition calculateValidMoves (fuel : nat) (pieceType : PieceType.t)
  (position : Position.t) : run (list Position.t) :=
  match tryBlock fuel pieceType position with
  | Some (Throw error) => Some (Throw (FailedToCalculateMoves error))
  | r => r
  end.

Definition isPieceTypeSupported (pieceType : PieceType.t) : bool :=
  MovementStrategyFactory.hasStrategy pieceType.

Definition getSupportedPieceTypes : list PieceType.t :=
  MovementStrategyFactory.getSupportedPieceTypes.

Definition calculateValidMovesAsString (fuel : nat)
  (pieceType : PieceType.t) (position : Position.t) : run str :=
  validMoves <- calculateValidMoves fuel pieceType position ;;
  Some (Ok (PositionSorter.toOutputString validMoves)).

End ChessMovementService.

(** ** Errors of the parsing layer

    The parsers raise errors of their own and wrap the ones they
    catch; as above a constructor stands for a message template. *)

Inductive inputError :=
| UnsupportedPieceType (pieceStr : str)
    (* Unsupported piece type: ${pieceStr}. Supported types: ... *)
| PositionError (e : error)
    (* an error raised by Position, with its message *)
| InvalidInput (cause : inputError)
    (* Invalid input: ${cause.message} *)
| NoArguments
    (* No arguments provided. Usage: <PieceType> <Position> *)
| InvalidNumberOfArguments (count : nat)
    (* Invalid number of arguments: ${count}. Expected: 2. Usage: ... *)
| EmptyArguments
    (* Arguments cannot be empty. Usage: <PieceType> <Position> *)
| NotANonEmptyString
    (* Input must be a non-empty string *)
| InvalidInputFormat (input : str).
    (* Invalid input format: "${input}". Expected format: ... *)

Inductive parsed (A : Type) :=
| Parsed (a : A)
| Failed (e : inputError).

Arguments Parsed {A} a.
Arguments Failed {A} e.

(** ** models/PieceType: PieceTypeUtils *)

Module PieceTypeUtils.

(** [Object.values(PieceType)], in declaration order. *)
Definition values : list PieceType.t :=
  [PieceType.PAWN; PieceType.KING; PieceType.QUEEN].

Definition fromString (pieceStr : str) : parsed PieceType.t :=
  let normalizedStr := trim pieceStr in
  let upperStr :=
    toUpperCase (charAt normalizedStr 0)
    ++ toLowerCase (slice1 normalizedStr) in
  match find (fun type => Position.eqStr type upperStr) values with
  | None => Failed (UnsupportedPieceType pieceStr)
  | Some pieceType => Parsed pieceType
  end.

Definition isValid (pieceStr : str) : bool :=
  match fromString pieceStr with
  | Parsed _ => true
  | Failed _ => false
  end.

Definition getAllTypes : list PieceType.t := values.

End PieceTypeUtils.

(** ** utils/InputParser *)

Module InputParser.

Record ParsedInput := {
  pieceType : PieceType.t;
  position : Position.t
}.

Definition isBlank (arg : str) : bool :=
  match arg with
  | [] => true
  | _ => Nat.eqb (List.length (trim arg)) 0
  end.

(** [None] when the arguments pass. *)
Definition validateArgsLength (args : list str) : option inputError :=
  if Nat.eqb (List.length args) 0 then Some NoArguments
  else if negb (Nat.eqb (List.length args) 2)
  then Some (InvalidNumberOfArguments (List.length args))
  else if existsb isBlank args then Some EmptyArguments
  else None.

(** The [try] block of [parseArgs]. *)
Definition parsePair (pieceTypeStr positionStr : str) : parsed ParsedInput :=
  match PieceTypeUtils.fromString pieceTypeStr with
  | Failed e => Failed e
  | Parsed pieceType =>
      match Position.fromNotation positionStr with
      | Throw e => Failed (PositionError e)
      | Ok position =>
          Parsed {| pieceType := pieceType; position := position |}
      end
  end.

(** [parseArgs]; the last case of the destructuring is not reached,
    the length having been validated. *)
Definition parseArgs (args : list str) : parsed ParsedInput :=
  match validateArgsLength args with
  | Some e => Failed e
  | None =>
      match args with
      | [pieceTypeStr; positionStr] =>
          match parsePair pieceTypeStr positionStr with
          | Failed error => Failed (InvalidInput error)
          | Parsed input => Parsed input
          end
      | _ => Failed (InvalidNumberOfArguments (List.length args))
      end
  end.

Definition parseString (input : str) : parsed ParsedInput :=
  match input with
  | [] => Failed NotANonEmptyString
  | _ =>
      let parts := map trim (split 44 input) in
      if negb (Nat.eqb (List.length parts) 2)
      then Failed (InvalidInputFormat input)
      else parseArgs parts
  end.

End InputParser.

(** ** Squares of the board *)

(** The square in column [i] (0 is A) and rank [r]. *)
Definition square (i r : Z) : Position.t :=
  {| Position._file := [65 + i]; Position._rank := r |}.

(** A valid square: file one of the letters A-H, rank 1-8. *)
Definition onBoard (p : Position.t) : bool :=
  match Position._file p with
  | [c] => (65 <=? c) && (c <=? 72)
  | _ => false
  end && (1 <=? Position._rank p) && (Position._rank p <=? 8).

Definition indices : list Z := [0; 1; 2; 3; 4; 5; 6; 7].

Definition allSquares : list Position.t :=
  flat_map (fun i => map (fun j => square i (j + 1)) indices) indices.

(** Squares written in notation, for the examples of the specification. *)
Definition sq (s : string) : Position.t :=
  match lit s with
  | [c; d] => {| Position._file := [c]; Position._rank := d - 48 |}
  | _ => {| Position._file := []; Position._rank := 0 |}
  end.





(** Where a square lies: on file A or H, on rank 1 or 8. *)
Definition onEdgeFile (p : Position.t) : bool :=
  match Position._file p with
  | [c] => (c =? 65) || (c =? 72)
  | _ => false
  end.

Definition onEdgeRank (p : Position.t) : bool :=
  (Position._rank p =? 1) || (Position._rank p =? 8).

Definition isCorner (p : Position.t) : bool := onEdgeFile p && onEdgeRank p.

Definition isEdge (p : Position.t) : bool := onEdgeFile p || onEdgeRank p.

(** The order of the output: by file letter, then by rank. *)
Definition fileRankLt (p q : Position.t) : Prop :=
  exists c d, Position._file p = [c] /\ Position._file q = [d] /\
    (c < d \/ (c = d /\ Position._rank p < Position._rank q)).

Definition fileRankLe (p q : Position.t) : Prop :=
  exists c d, Position._file p = [c] /\ Position._file q = [d] /\
    (c < d \/ (c = d /\ Position._rank p <= Position._rank q)).

(** A square whose file is one character. *)
Definition oneLetter (p : Position.t) : Prop :=
  exists c, Position._file p = [c].

(** One of the letters A-H, in either case. *)
Definition isFileLetter (file : str) : Prop :=
  exists c, file = [c] /\ (65 <= c <= 72 \/ 97 <= c <= 104).

(** An integer in 1..8. *)
Definition isRankNumber (rank : number) : Prop :=
  exists z, rank = Int z /\ 1 <= z <= 8.

(** A letter, and a decimal digit. *)
Definition isLetter (c : Z) : bool :=
  ((65 <=? c) && (c <=? 90)) || ((97 <=? c) && (c <=? 122)).

(** Text that is not two characters, a letter then a digit. *)
Definition malformed (text : str) : Prop :=
  match text with
  | [c; d] => isLetter c = false \/ isDigit d = false
  | _ => True
  end.

(** Decidable checks on lists of squares. *)
Fixpoint nodupb (l : list Position.t) : bool :=
  match l with
  | [] => true
  | x :: l' => negb (existsb (Position.equals x) l') && nodupb l'
  end.

Definition awayOnBoard (p : Position.t) (l : list Position.t) : bool :=
  forallb (fun q => negb (Position.equals q p) && onBoard q) l.


(** The moves of a rule that returned, with a check on them. *)
Definition returnsWith (s : MovementStrategy) (fuel : nat) (p : Position.t)
  (check : list Position.t -> bool) : bool :=
  match calculateValidMoves s fuel p with
  | Some (Ok l) => check l
  | _ => false
  end.

Definition kingCount (p : Position.t) : nat :=
  if isCorner p then 3%nat else if isEdge p then 5%nat else 8%nat.

(** ** Lines of squares *)

(** Column [a] (0 is A) and rank [b] are on the board. *)
Definition inside (a b : Z) : bool :=
  (0 <=? a) && (a <=? 7) && (1 <=? b) && (b <=? 8).

(** The squares at 1, ..., [n] steps of [(fileDirection, rankDirection)]
    from column [a] and rank [b], the nearest first. *)
Definition line (a b fileDirection rankDirection : Z) (n : nat)
  : list Position.t :=
  map (fun k => square (a + Z.of_nat k * fileDirection)
                       (b + Z.of_nat k * rankDirection))
      (seq 1 n).

(** Steps that remain before the board is left, in the coordinate
    that the direction changes. *)
Definition reach (a b fileDirection rankDirection : Z) : Z :=
  if 0 <? fileDirection then 7 - a
  else if fileDirection <? 0 then a
  else if 0 <? rankDirection then 8 - b
  else b - 1.

(** The column of a square, and the two geometric relations of the
    rules: one step away in any direction; on the same file, rank or
    diagonal. *)
Definition column (p : Position.t) : Z :=
  match Position.fileIndex p with
  | Some index => index
  | None => 0
  end.

Definition kingStep (p q : Position.t) : bool :=
  negb (Position.equals q p)
  && (Z.abs (column q - column p) <=? 1)
  && (Z.abs (Position.rank q - Position.rank p) <=? 1).

Definition queenLine (p q : Position.t) : bool :=
  negb (Position.equals q p)
  && ((column q =? column p)
      || (Position.rank q =? Position.rank p)
      || (Z.abs (column q - column p)
          =? Z.abs (Position.rank q - Position.rank p))).

(** The moves are board squares, and among the 64 squares exactly
    those related to the origin. *)
Definition movesAre (related : Position.t -> Position.t -> bool)
  (p : Position.t) (l : list Position.t) : bool :=
  forallb onBoard l
  && forallb (fun q => Bool.eqb (existsb (Position.equals q) l)
                                (related p q)) allSquares.

(** Every square of [l] is in [l']. *)
Definition subsetb (l l' : list Position.t) : bool :=
  forallb (fun q => existsb (Position.equals q) l') l.

(** The distance from a square to the nearest edge of the board. *)
Definition edgeDistance (p : Position.t) : Z :=
  Z.min (Z.min (column p) (7 - column p))
        (Z.min (Position.rank p - 1) (8 - Position.rank p)).

(** The three rules of the program. *)
Definition isRule (s : MovementStrategy) : Prop :=
  s = PawnMovementStrategy \/ s = KingMovementStrategy
  \/ s = QueenMovementStrategy.

(** * Properties *)

(** ** Equality of squares *)

Lemma eqStr_true_iff (a b : str) : Position.eqStr a b = true <-> a = b.
Proof.
  unfold Position.eqStr.
  destruct (list_eq_dec Z.eq_dec a b); split; congruence.
Qed.

Lemma equals_true_iff (p q : Position.t) :
  Position.equals p q = true <-> p = q.
Proof.
  unfold Position.equals.
  rewrite andb_true_iff, eqStr_true_iff, Z.eqb_eq.
  destruct p, q; simpl; split.
  - intros [-> ->]; reflexivity.
  - intros H; inversion H; auto.
Qed.

Lemma equals_refl (p : Position.t) : Position.equals p p = true.
Proof. apply equals_true_iff; reflexivity. Qed.

Lemma equals_false_iff (p q : Position.t) :
  Position.equals p q = false <-> p <> q.
Proof.
  rewrite <- equals_true_iff.
  destruct (Position.equals p q); split; congruence.
Qed.

Lemma existsb_equals_In (x : Position.t) (l : list Position.t) :
  existsb (Position.equals x) l = true <-> In x l.
Proof.
  rewrite existsb_exists; split.
  - intros (y & Hy & E). apply equals_true_iff in E. subst; assumption.
  - intros H; exists x; split; [assumption | apply equals_refl].
Qed.

Lemma nodupb_NoDup (l : list Position.t) : nodupb l = true -> NoDup l.
Proof.
  induction l as [| x l IH]; simpl; intros H.
  - constructor.
  - apply andb_true_iff in H as [Hx Hl].
    constructor; [| auto].
    intro Hin. apply existsb_equals_In in Hin.
    rewrite Hin in Hx; discriminate.
Qed.

Lemma awayOnBoard_Forall (p : Position.t) (l : list Position.t) :
  awayOnBoard p l = true -> Forall (fun q => q <> p /\ onBoard q = true) l.
Proof.
  unfold awayOnBoard; rewrite forallb_forall, Forall_forall.
  intros H q Hq. specialize (H q Hq).
  apply andb_true_iff in H as [Hne Hon].
  split; [| assumption].
  apply equals_false_iff. apply negb_true_iff; assumption.
Qed.


(** ** The 64 squares *)

Lemma onBoard_square (p : Position.t) :
  onBoard p = true ->
  exists i r, p = square i r /\ 0 <= i <= 7 /\ 1 <= r <= 8.
Proof.
  destruct p as [f r]; unfold onBoard; simpl.
  destruct f as [| c [| c' f']]; simpl; try discriminate.
  rewrite !andb_true_iff, !Z.leb_le.
  intros [[[H1 H2] H3] H4].
  exists (c - 65), r; unfold square.
  replace (65 + (c - 65)) with c by lia.
  repeat split; lia.
Qed.

Lemma square_in_allSquares (i r : Z) :
  0 <= i <= 7 -> 1 <= r <= 8 -> In (square i r) allSquares.
Proof.
  intros Hi Hr.
  unfold allSquares. apply in_flat_map.
  exists i; split.
  - unfold indices; simpl; lia.
  - apply in_map_iff. exists (r - 1); split.
    + f_equal; lia.
    + unfold indices; simpl; lia.
Qed.

Lemma onBoard_allSquares (p : Position.t) :
  onBoard p = true -> In p allSquares.
Proof.
  intros H. apply onBoard_square in H as (i & r & -> & Hi & Hr).
  apply square_in_allSquares; assumption.
Qed.

(** A check that holds on each of the 64 squares holds on every valid
    square. *)
Lemma board_check (check : Position.t -> bool) :
  forallb check allSquares = true ->
  forall p, onBoard p = true -> check p = true.
Proof.
  intros H p Hp.
  rewrite forallb_forall in H.
  apply H, onBoard_allSquares, Hp.
Qed.

(** ** More iterations than needed do not change a result *)

Lemma loop_more_fuel (fuel : nat) :
  forall fileDirection rankDirection maxSteps moves steps currentPos r,
  BaseMovementStrategy.loop fuel fileDirection rankDirection maxSteps
    moves steps currentPos = Some r ->
  forall fuel', (fuel <= fuel')%nat ->
  BaseMovementStrategy.loop fuel' fileDirection rankDirection maxSteps
    moves steps currentPos = Some r.
Proof.
  induction fuel as [| fuel IH]; intros fd rd ms moves steps pos r H fuel' Hle.
  - discriminate.
  - destruct fuel' as [| fuel']; [lia |].
    simpl in H |- *.
    destruct (match ms with None => true | Some m => steps <? m end);
      [| assumption].
    destruct (Position.offset pos fd rd) as [[next |] | e]; try assumption.
    apply IH with (fuel' := fuel') in H; [assumption | lia].
Qed.

Lemma forDirections_more_fuel (fuel fuel' : nat) (position : Position.t)
  (maxSteps : option Z) (ds : list (Z * Z)) :
  (fuel <= fuel')%nat ->
  forall allMoves r,
  BaseMovementStrategy.forDirections fuel position maxSteps ds allMoves
    = Some r ->
  BaseMovementStrategy.forDirections fuel' position maxSteps ds allMoves
    = Some r.
Proof.
  intros Hle. induction ds as [| [fd rd] ds IH]; intros allMoves r H.
  - exact H.
  - simpl in H |- *.
    unfold BaseMovementStrategy.generateMovesInDirection in *.
    destruct (BaseMovementStrategy.loop fuel fd rd maxSteps [] 0 position)
      as [r0 |] eqn:E; [| discriminate].
    rewrite (loop_more_fuel _ _ _ _ _ _ _ _ E _ Hle).
    destruct r0 as [l | e]; simpl in H |- *; auto.
Qed.

Lemma rule_more_fuel (s : MovementStrategy) (fuel fuel' : nat)
  (p : Position.t) (r : result (list Position.t)) :
  isRule s -> (fuel <= fuel')%nat ->
  calculateValidMoves s fuel p = Some r ->
  calculateValidMoves s fuel' p = Some r.
Proof.
  intros [-> | [-> | ->]] Hle H; simpl in *.
  - exact H.
  - eapply forDirections_more_fuel; eassumption.
  - eapply forDirections_more_fuel; eassumption.
Qed.

Lemma returnsWith_more_fuel (s : MovementStrategy) (fuel fuel' : nat)
  (p : Position.t) (check : list Position.t -> bool) :
  isRule s -> (fuel <= fuel')%nat ->
  returnsWith s fuel p check = true ->
  exists l, calculateValidMoves s fuel' p = Some (Ok l) /\ check l = true.
Proof.
  unfold returnsWith; intros Hs Hle H.
  destruct (calculateValidMoves s fuel p) as [[l | e] |] eqn:E;
    try discriminate.
  exists l; split; [| assumption].
  eapply rule_more_fuel; eassumption.
Qed.

(** ** The dispatcher *)

Lemma createStrategy_cases (pieceType : PieceType.t) :
  (pieceType = PieceType.PAWN /\
   MovementStrategyFactory.createStrategy pieceType = Ok PawnMovementStrategy)
  \/ (pieceType = PieceType.KING /\
   MovementStrategyFactory.createStrategy pieceType = Ok KingMovementStrategy)
  \/ (pieceType = PieceType.QUEEN /\
   MovementStrategyFactory.createStrategy pieceType
     = Ok QueenMovementStrategy)
  \/ (~ In pieceType [PieceType.PAWN; PieceType.KING; PieceType.QUEEN] /\
   MovementStrategyFactory.createStrategy pieceType
     = Throw (NoMovementStrategy pieceType)).
Proof.
  unfold MovementStrategyFactory.createStrategy,
    MovementStrategyFactory.strategyMap; simpl.
  destruct (Position.eqStr PieceType.PAWN pieceType) eqn:E1.
  { apply eqStr_true_iff in E1; subst; auto. }
  destruct (Position.eqStr PieceType.KING pieceType) eqn:E2.
  { apply eqStr_true_iff in E2; subst; auto. }
  destruct (Position.eqStr PieceType.QUEEN pieceType) eqn:E3.
  { apply eqStr_true_iff in E3; subst; auto 6. }
  right; right; right; split; [| reflexivity].
  simpl; intros [H | [H | [H | []]]]; subst;
    match goal with
    | E : Position.eqStr ?a ?a = false |- _ =>
        assert (Position.eqStr a a = true) by (apply eqStr_true_iff; auto);
        congruence
    end.
Qed.

Lemma createStrategy_rule (pieceType : PieceType.t) (s : MovementStrategy) :
  MovementStrategyFactory.createStrategy pieceType = Ok s -> isRule s.
Proof.
  unfold isRule.
  destruct (createStrategy_cases pieceType)
    as [[_ E] | [[_ E] | [[_ E] | [_ E]]]]; rewrite E; intros H;
    inversion H; auto.
Qed.


(** ** The rules on the 64 squares *)

(** On a valid square each rule returns, and returns only squares of
    the board other than the origin. *)
Lemma rule_moves_on_board (s : MovementStrategy) (fuel : nat)
  (p : Position.t) :
  isRule s -> (8 <= fuel)%nat -> onBoard p = true ->
  exists l, calculateValidMoves s fuel p = Some (Ok l) /\
            Forall (fun q => q <> p /\ onBoard q = true) l.
Proof.
  intros Hs Hfuel Hp.
  assert (H : returnsWith s 8 p (awayOnBoard p) = true).
  { revert p Hp.
    destruct Hs as [-> | [-> | ->]]; apply board_check;
      vm_compute; reflexivity. }
  destruct (returnsWith_more_fuel s 8 fuel p _ Hs Hfuel H) as (l & El & Hl).
  exists l; split; [assumption | apply awayOnBoard_Forall; assumption].
Qed.



(** C2: on a valid square the king rule returns exactly 3 squares from
    a corner, 5 from an edge square that is not a corner and 8 from an
    interior square; the origin is not among them and no square occurs
    twice. *)
Theorem king_moves_count (fuel : nat) (p : Position.t) :
  (2 <= fuel)%nat -> onBoard p = true ->
  exists l, calculateValidMoves KingMovementStrategy fuel p = Some (Ok l)
    /\ (isCorner p = true -> List.length l = 3%nat)
    /\ (isEdge p = true -> isCorner p = false -> List.length l = 5%nat)
    /\ (isEdge p = false -> List.length l = 8%nat)
    /\ ~ In p l /\ NoDup l.
Proof.
  intros Hfuel Hp.
  assert (Hk : isRule KingMovementStrategy) by (unfold isRule; auto).
  assert (H : returnsWith KingMovementStrategy 2 p
                (fun l => Nat.eqb (List.length l) (kingCount p)
                          && nodupb l && awayOnBoard p l) = true).
  { revert p Hp. apply board_check. vm_compute; reflexivity. }
  destruct (returnsWith_more_fuel _ 2 fuel p _ Hk Hfuel H) as (l & El & Hl).
  apply andb_true_iff in Hl as [Hl Ha].
  apply andb_true_iff in Hl as [Hn Hd].
  apply Nat.eqb_eq in Hn. unfold kingCount in Hn.
  exists l; split; [assumption |].
  repeat split.
  - intros Hc; rewrite Hc in Hn; assumption.
  - intros He Hc; rewrite Hc, He in Hn; assumption.
  - intros He.
    assert (Hc : isCorner p = false).
    { unfold isCorner, isEdge in *.
      apply orb_false_iff in He as [-> _]; reflexivity. }
    rewrite Hc, He in Hn; assumption.
  - intros Hin. apply awayOnBoard_Forall in Ha.
    rewrite Forall_forall in Ha. destruct (Ha p Hin) as [Hne _].
    apply Hne; reflexivity.
  - apply nodupb_NoDup; assumption.
Qed.

Lemma king_moves_count_witness :
  exists l, calculateValidMoves KingMovementStrategy 2 (sq "D5") = Some (Ok l)
    /\ (isCorner (sq "D5") = true -> List.length l = 3%nat)
    /\ (isEdge (sq "D5") = true -> isCorner (sq "D5") = false ->
        List.length l = 5%nat)
    /\ (isEdge (sq "D5") = false -> List.length l = 8%nat)
    /\ ~ In (sq "D5") l /\ NoDup l.
Proof.
  apply (king_moves_count 2 (sq "D5")); [apply le_n | reflexivity].
Defined.

(** C9: on a valid square each of the pawn, king and queen rules
    returns, and every square returned is on the board and differs
    from the origin; the pawn rule returns exactly the square one rank
    up on the same file when the rank is below 8, and nothing on
    rank 8. *)
Theorem rules_return_board_squares (s : MovementStrategy) (fuel : nat)
  (p : Position.t) :
  isRule s -> (8 <= fuel)%nat -> onBoard p = true ->
  (exists l, calculateValidMoves s fuel p = Some (Ok l) /\
             Forall (fun q => q <> p /\ onBoard q = true) l)
  /\ (Position._rank p < 8 ->
      calculateValidMoves PawnMovementStrategy fuel p
      = Some (Ok [ {| Position._file := Position._file p;
                      Position._rank := Position._rank p + 1 |} ]))
  /\ (Position._rank p = 8 ->
      calculateValidMoves PawnMovementStrategy fuel p = Some (Ok [])).
Proof.
  intros Hs Hfuel Hp.
  split; [apply rule_moves_on_board; assumption |].
  apply onBoard_allSquares in Hp.
  simpl in Hp.
  repeat destruct Hp as [<- | Hp]; try contradiction;
    (split; intros Hr; simpl in Hr;
     [ try (exfalso; lia); reflexivity
     | try discriminate Hr; reflexivity ]).
Qed.

Lemma rules_return_board_squares_witness :
  (exists l, calculateValidMoves QueenMovementStrategy 8 (sq "A8")
             = Some (Ok l) /\
             Forall (fun q => q <> sq "A8" /\ onBoard q = true) l)
  /\ (Position._rank (sq "A8") < 8 ->
      calculateValidMoves PawnMovementStrategy 8 (sq "A8")
      = Some (Ok [ {| Position._file := Position._file (sq "A8");
                      Position._rank := Position._rank (sq "A8") + 1 |} ]))
  /\ (Position._rank (sq "A8") = 8 ->
      calculateValidMoves PawnMovementStrategy 8 (sq "A8") = Some (Ok [])).
Proof.
  apply (rules_return_board_squares QueenMovementStrategy 8 (sq "A8"));
    [right; right; reflexivity | apply le_n | reflexivity].
Defined.

(** ** Construction of a square *)

Lemma upperUnit_other (c : Z) : c < 97 \/ 122 < c -> upperUnit c = c.
Proof.
  intros H. unfold upperUnit.
  destruct (97 <=? c) eqn:E1; [| reflexivity].
  destruct (c <=? 122) eqn:E2; [| reflexivity].
  apply Z.leb_le in E1, E2. lia.
Qed.

Lemma upperUnit_lower (c : Z) : 97 <= c <= 122 -> upperUnit c = c - 32.
Proof.
  intros H. unfold upperUnit.
  destruct (97 <=? c) eqn:E1; [| apply Z.leb_gt in E1; lia].
  destruct (c <=? 122) eqn:E2; [| apply Z.leb_gt in E2; lia].
  reflexivity.
Qed.

Lemma toUpperCase_unit (c : Z) : toUpperCase [c] = [upperUnit c].
Proof. reflexivity. Qed.

Lemma leStr_A (u : str) :
  leStr (lit "A") u = true <-> exists c tl, u = c :: tl /\ 65 <= c.
Proof.
  destruct u as [| c tl].
  - split; [discriminate | intros (c & tl & H & _); discriminate].
  - change (leStr (lit "A") (c :: tl))
      with (if 65 <? c then true else if 65 =? c then true else false).
    destruct (65 <? c) eqn:E1.
    + apply Z.ltb_lt in E1. split; [| reflexivity].
      intros _; exists c, tl; split; [reflexivity | lia].
    + apply Z.ltb_ge in E1. destruct (65 =? c) eqn:E2.
      * apply Z.eqb_eq in E2. split; [| reflexivity].
        intros _; exists c, tl; split; [reflexivity | lia].
      * apply Z.eqb_neq in E2. split; [discriminate |].
        intros (c' & tl' & H & Hc); inversion H; subst; lia.
Qed.

Lemma leStr_H (c : Z) (tl : str) :
  leStr (c :: tl) (lit "H") = true <-> c < 72 \/ (c = 72 /\ tl = []).
Proof.
  change (leStr (c :: tl) (lit "H"))
    with (if c <? 72 then true
          else if c =? 72 then leStr tl [] else false).
  destruct (c <? 72) eqn:E1.
  - apply Z.ltb_lt in E1. split; auto.
  - apply Z.ltb_ge in E1. destruct (c =? 72) eqn:E2.
    + apply Z.eqb_eq in E2. destruct tl; simpl.
      * split; auto.
      * split; [discriminate |].
        intros [H | [_ H]]; [lia | discriminate].
    + apply Z.eqb_neq in E2. split; [discriminate |].
      intros [H | [H _]]; lia.
Qed.

Lemma isValidFile_upper (file : str) :
  Position.isValidFile file = true <->
  exists c tl, toUpperCase file = c :: tl /\
               (65 <= c <= 71 \/ (c = 72 /\ tl = [])).
Proof.
  unfold Position.isValidFile. rewrite andb_true_iff, leStr_A.
  split.
  - intros [(c & tl & Hu & Hc) H]. rewrite Hu in H.
    apply leStr_H in H. exists c, tl; split; [assumption |].
    destruct H as [H | H]; [left; lia | right; assumption].
  - intros (c & tl & Hu & Hc). rewrite Hu. split.
    + exists c, tl; split; [reflexivity |].
      destruct Hc as [Hc | [Hc _]]; lia.
    + apply leStr_H.
      destruct Hc as [Hc | Hc]; [left; lia | right; assumption].
Qed.

Lemma letter_range (c : Z) :
  65 <= c <= 72 -> 65 <= c <= 71 \/ (c = 72 /\ @nil Z = []).
Proof.
  intros H. destruct (Z.eq_dec c 72); [right; split; auto | left; lia].
Qed.

Lemma isValidRank_Int (rank : number) :
  Position.isValidRank rank = true <-> isRankNumber rank.
Proof.
  unfold Position.isValidRank, isRankNumber.
  destruct rank as [z | b | | n]; simpl.
  - rewrite andb_true_iff, !Z.leb_le; split.
    + intros H; exists z; split; [reflexivity | lia].
    + intros (z' & H & Hz); inversion H; subst; lia.
  - split; [discriminate | intros (z & H & _); discriminate].
  - split; [discriminate | intros (z & H & _); discriminate].
  - split; [discriminate | intros (z & H & _); discriminate].
Qed.

(** The three outcomes of [new Position(file, rank)]: the file is
    checked first, then the rank. *)
Lemma constructor_cases (file : str) (rank : number) :
  (Position.isValidFile file = false /\
   Position.constructor file rank = Throw (InvalidFile file))
  \/ (Position.isValidFile file = true /\
      Position.isValidRank rank = false /\
      Position.constructor file rank = Throw (InvalidRank rank))
  \/ (Position.isValidFile file = true /\
      exists z, rank = Int z /\ 1 <= z <= 8 /\
      Position.constructor file rank
      = Ok {| Position._file := toUpperCase file; Position._rank := z |}).
Proof.
  unfold Position.constructor, Position.validateFile, Position.validateRank.
  destruct (Position.isValidFile file); simpl; [| auto].
  destruct (Position.isValidRank rank) eqn:Er; simpl; [| auto].
  right; right; split; [reflexivity |].
  apply isValidRank_Int in Er as (z & -> & Hz).
  exists z; auto.
Qed.

Lemma fromCoordinates_board (i r : Z) :
  0 <= i <= 7 -> 1 <= r <= 8 ->
  Position.fromCoordinates i (Int r) = Ok (square i r).
Proof.
  intros Hi Hr.
  unfold Position.fromCoordinates, fromCharCode.
  rewrite Z.mod_small by lia.
  destruct (constructor_cases [65 + i] (Int r))
    as [[Hf _] | [[_ [Hk _]] | [_ (z & Hz & _ & E)]]].
  - assert (Hv : Position.isValidFile [65 + i] = true).
    { apply isValidFile_upper. exists (65 + i), []; split.
      - rewrite toUpperCase_unit, upperUnit_other by lia. reflexivity.
      - apply letter_range; lia. }
    congruence.
  - assert (Hv : Position.isValidRank (Int r) = true).
    { apply isValidRank_Int; exists r; auto. }
    congruence.
  - rewrite E. inversion Hz; subst z.
    rewrite toUpperCase_unit, upperUnit_other by lia. reflexivity.
Qed.

(** A constructed square has a file index in 0..7 and a rank in 1..8. *)
Lemma constructed_coordinates (file : str) (rank : number)
  (p : Position.t) :
  Position.constructor file rank = Ok p ->
  exists index, Position.fileIndex p = Some index /\ 0 <= index <= 7
                /\ 1 <= Position._rank p <= 8
                /\ Position._file p = toUpperCase file.
Proof.
  intros H.
  destruct (constructor_cases file rank)
    as [[_ E] | [[_ [_ E]] | [Hf (z & _ & Hz & E)]]];
    rewrite E in H; inversion H; subst p; clear H.
  apply isValidFile_upper in Hf as (c & tl & Hu & Hc).
  exists (c - 65); unfold Position.fileIndex; simpl; rewrite Hu; simpl.
  repeat split; lia.
Qed.

(** The two branches of [offset] on a square with a file index. *)
Lemma offset_inside (q : Position.t) (index fileOffset rankOffset : Z) :
  Position.fileIndex q = Some index ->
  0 <= index + fileOffset <= 7 ->
  1 <= Position._rank q + rankOffset <= 8 ->
  Position.offset q fileOffset rankOffset
  = bind (Position.fromCoordinates (index + fileOffset)
            (Int (Position._rank q + rankOffset)))
         (fun r => Ok (Some r)).
Proof.
  intros Hi H1 H2. unfold Position.offset. rewrite Hi.
  destruct (index + fileOffset <? 0) eqn:E1;
    [apply Z.ltb_lt in E1; lia |].
  destruct (index + fileOffset >? 7) eqn:E2;
    [rewrite Z.gtb_ltb in E2; apply Z.ltb_lt in E2; lia |].
  destruct (Position._rank q + rankOffset <? 1) eqn:E3;
    [apply Z.ltb_lt in E3; lia |].
  destruct (Position._rank q + rankOffset >? 8) eqn:E4;
    [rewrite Z.gtb_ltb in E4; apply Z.ltb_lt in E4; lia |].
  reflexivity.
Qed.

Lemma offset_outside (q : Position.t) (index fileOffset rankOffset : Z) :
  Position.fileIndex q = Some index ->
  (index + fileOffset < 0 \/ 7 < index + fileOffset
   \/ Position._rank q + rankOffset < 1
   \/ 8 < Position._rank q + rankOffset) ->
  Position.offset q fileOffset rankOffset = Ok None.
Proof.
  intros Hi H. unfold Position.offset. rewrite Hi.
  destruct (index + fileOffset <? 0) eqn:E1; [reflexivity |].
  destruct (index + fileOffset >? 7) eqn:E2; [reflexivity |].
  destruct (Position._rank q + rankOffset <? 1) eqn:E3; [reflexivity |].
  destruct (Position._rank q + rankOffset >? 8) eqn:E4; [reflexivity |].
  apply Z.ltb_ge in E1, E3. rewrite Z.gtb_ltb in E2, E4.
  apply Z.ltb_ge in E2, E4. lia.
Qed.

(** C4: for every valid square, printing it gives two characters and
    parsing them gives the square back. *)
Theorem fromNotation_toNotation (p : Position.t) :
  onBoard p = true ->
  List.length (Position.toNotation p) = 2%nat /\
  Position.fromNotation (Position.toNotation p) = Ok p.
Proof.
  intros Hp. apply onBoard_allSquares in Hp. simpl in Hp.
  repeat destruct Hp as [<- | Hp]; try contradiction;
    split; reflexivity.
Qed.

Lemma fromNotation_toNotation_witness :
  List.length (Position.toNotation (sq "D5")) = 2%nat /\
  Position.fromNotation (Position.toNotation (sq "D5")) = Ok (sq "D5").
Proof. apply (fromNotation_toNotation (sq "D5")). reflexivity. Defined.

(** C5: on a constructed square, [offset] never throws; it returns
    null exactly when the shifted file index leaves 0..7 or the shifted
    rank leaves 1..8, and otherwise the square with the shifted
    coordinates; [offset(0,0)] returns a square with the coordinates of
    the original.  ([offset] only reads the square it is called on.) *)
Theorem offset_on_constructed (file : str) (rank : number) (p : Position.t)
  (fileDelta rankDelta : Z) :
  isAscii file = true ->
  Position.constructor file rank = Ok p ->
  exists index, Position.fileIndex p = Some index /\
    (Position.offset p fileDelta rankDelta = Ok None <->
       (index + fileDelta < 0 \/ 7 < index + fileDelta
        \/ Position._rank p + rankDelta < 1
        \/ 8 < Position._rank p + rankDelta))
    /\ (0 <= index + fileDelta <= 7 ->
        1 <= Position._rank p + rankDelta <= 8 ->
        Position.offset p fileDelta rankDelta
        = Ok (Some (square (index + fileDelta)
                           (Position._rank p + rankDelta))))
    /\ (forall e, Position.offset p fileDelta rankDelta <> Throw e)
    /\ (exists q, Position.offset p 0 0 = Ok (Some q) /\
                  Position.fileIndex q = Position.fileIndex p /\
                  Position._rank q = Position._rank p).
Proof.
  intros _ Hc.
  destruct (constructed_coordinates _ _ _ Hc) as (index & Hi & Hb & Hr & _).
  exists index; split; [assumption |].
  assert (inside : forall df dr,
    0 <= index + df <= 7 -> 1 <= Position._rank p + dr <= 8 ->
    Position.offset p df dr
    = Ok (Some (square (index + df) (Position._rank p + dr)))).
  { intros df dr H1 H2.
    rewrite (offset_inside p index df dr Hi H1 H2).
    rewrite fromCoordinates_board by assumption. reflexivity. }
  pose proof (fun df dr => offset_outside p index df dr Hi) as outside.
  assert (dec : (index + fileDelta < 0 \/ 7 < index + fileDelta
                 \/ Position._rank p + rankDelta < 1
                 \/ 8 < Position._rank p + rankDelta)
                \/ (0 <= index + fileDelta <= 7
                    /\ 1 <= Position._rank p + rankDelta <= 8)) by lia.
  repeat split.
  - intros H. destruct dec as [Ho | [H1 H2]]; [assumption |].
    rewrite (inside _ _ H1 H2) in H; discriminate.
  - apply outside.
  - apply inside.
  - intros e. destruct dec as [Ho | [H1 H2]].
    + rewrite (outside _ _ Ho); discriminate.
    + rewrite (inside _ _ H1 H2); discriminate.
  - exists (square (index + 0) (Position._rank p + 0)); split.
    + apply inside; lia.
    + rewrite Hi. split.
      * change (Some (65 + (index + 0) - 65) = Some index). f_equal; lia.
      * change (Position._rank p + 0 = Position._rank p). lia.
Qed.

Lemma offset_on_constructed_witness :
  exists index, Position.fileIndex (sq "D5") = Some index /\
    (Position.offset (sq "D5") 1 1 = Ok None <->
       (index + 1 < 0 \/ 7 < index + 1
        \/ Position._rank (sq "D5") + 1 < 1
        \/ 8 < Position._rank (sq "D5") + 1))
    /\ (0 <= index + 1 <= 7 ->
        1 <= Position._rank (sq "D5") + 1 <= 8 ->
        Position.offset (sq "D5") 1 1
        = Ok (Some (square (index + 1) (Position._rank (sq "D5") + 1))))
    /\ (forall e, Position.offset (sq "D5") 1 1 <> Throw e)
    /\ (exists q, Position.offset (sq "D5") 0 0 = Ok (Some q) /\
                  Position.fileIndex q = Position.fileIndex (sq "D5") /\
                  Position._rank q = Position._rank (sq "D5")).
Proof.
  apply (offset_on_constructed (lit "d") (Int 5) (sq "D5") 1 1);
    reflexivity.
Defined.

(** C10: a file index from 32 to 39 is outside 0..7, yet
    [fromCoordinates] accepts it with every rank from 1 to 8: the
    character built from it is one of the lower-case letters a-h, and
    the square returned has the upper-case letter as its file. *)
Theorem fromCoordinates_lower_case_index (i r : Z) :
  32 <= i <= 39 -> 1 <= r <= 8 ->
  ~ (0 <= i <= 7)
  /\ fromCharCode (65 + i) = [97 + (i - 32)]
  /\ toUpperCase (fromCharCode (65 + i)) = [65 + (i - 32)]
  /\ Position.fromCoordinates i (Int r) = Ok (square (i - 32) r).
Proof.
  intros Hi Hr.
  assert (Hc : fromCharCode (65 + i) = [97 + (i - 32)]).
  { unfold fromCharCode. rewrite Z.mod_small by lia. f_equal; lia. }
  assert (Hu : toUpperCase [97 + (i - 32)] = [65 + (i - 32)]).
  { rewrite toUpperCase_unit, upperUnit_lower by lia. f_equal; lia. }
  split; [lia |]. split; [assumption |].
  split; [rewrite Hc; assumption |].
  unfold Position.fromCoordinates. rewrite Hc.
  destruct (constructor_cases [97 + (i - 32)] (Int r))
    as [[Hf _] | [[_ [Hk _]] | [_ (z & Hz & _ & E)]]].
  - assert (Hv : Position.isValidFile [97 + (i - 32)] = true).
    { apply isValidFile_upper. exists (65 + (i - 32)), [].
      split; [assumption | apply letter_range; lia]. }
    congruence.
  - assert (Hv : Position.isValidRank (Int r) = true).
    { apply isValidRank_Int; exists r; auto. }
    congruence.
  - rewrite E, Hu. inversion Hz; subst z. reflexivity.
Qed.

Lemma fromCoordinates_lower_case_index_witness :
  ~ (0 <= 32 <= 7)
  /\ fromCharCode (65 + 32) = [97 + (32 - 32)]
  /\ toUpperCase (fromCharCode (65 + 32)) = [65 + (32 - 32)]
  /\ Position.fromCoordinates 32 (Int 1) = Ok (square (32 - 32) 1).
Proof. apply (fromCoordinates_lower_case_index 32 1); lia. Defined.

(** ** Construction from a file of one character *)

Lemma isValidFile_letter (file : str) :
  (List.length file <= 1)%nat ->
  Position.isValidFile file = true <-> isFileLetter file.
Proof.
  intros Hlen. rewrite isValidFile_upper. unfold isFileLetter.
  destruct file as [| x [| y rest]]; [| | simpl in Hlen; lia].
  - split; [intros (c & tl & H & _) | intros (c & H & _)]; discriminate.
  - rewrite toUpperCase_unit. split.
    + intros (c & tl & H & Hc). inversion H; subst c tl; clear H.
      exists x; split; [reflexivity |].
      assert (Hx : x < 97 \/ 122 < x \/ 97 <= x <= 122) by lia.
      destruct Hx as [Hx | [Hx | Hx]].
      * rewrite upperUnit_other in Hc by lia. lia.
      * rewrite upperUnit_other in Hc by lia. lia.
      * rewrite upperUnit_lower in Hc by lia. lia.
    + intros (c & H & Hc). inversion H; subst c; clear H.
      exists (upperUnit x), []; split; [reflexivity |].
      apply letter_range. destruct Hc as [Hc | Hc].
      * rewrite upperUnit_other by lia. lia.
      * rewrite upperUnit_lower by lia. lia.
Qed.

Lemma isFileLetter_upper (c : Z) :
  isFileLetter [c] -> 65 <= upperUnit c <= 72.
Proof.
  intros (c' & H & Hc). inversion H; subst c'; clear H.
  destruct Hc as [Hc | Hc].
  - rewrite upperUnit_other by lia. lia.
  - rewrite upperUnit_lower by lia. lia.
Qed.

(** A file of two letters passes the range test of [isValidFile]. *)
Lemma constructor_accepts_two_letters :
  Position.constructor (lit "AB") (Int 1)
  = Ok {| Position._file := lit "AB"; Position._rank := 1 |}.
Proof. reflexivity. Qed.

(** C6, as stated, fails: with the file Z and the rank 0, which is not
    an integer in 1..8, construction does not fail with the rank error:
    the file is validated first and its error is the one raised. *)
Lemma constructor_checks_file_first :
  Position.constructor (lit "Z") (Int 0) = Throw (InvalidFile (lit "Z"))
  /\ ~ isRankNumber (Int 0)
  /\ ~ (exists r, Position.constructor (lit "Z") (Int 0)
                  = Throw (InvalidRank r)).
Proof.
  split; [reflexivity |]. split.
  - intros (z & H & Hz). inversion H; subst z. lia.
  - intros (r & H). discriminate H.
Qed.

(** C6, amended: for a file of at most one character, construction
    fails with the file error exactly when the file is not one of the
    letters A-H in either case, and with the rank error exactly when
    the file is such a letter and the rank is not an integer in 1..8;
    it raises no other error, and a constructed square stores the
    upper-case file and lies on the board. *)
Theorem constructor_one_character_file (file : str) (rank : number) :
  isAscii file = true -> (List.length file <= 1)%nat ->
  (Position.constructor file rank = Throw (InvalidFile file)
     <-> ~ isFileLetter file)
  /\ (Position.constructor file rank = Throw (InvalidRank rank)
     <-> isFileLetter file /\ ~ isRankNumber rank)
  /\ (forall e, Position.constructor file rank = Throw e ->
        e = InvalidFile file \/ e = InvalidRank rank)
  /\ (forall p, Position.constructor file rank = Ok p ->
        Position._file p = toUpperCase file
        /\ onBoard p = true /\ Position.isValid p = true).
Proof.
  intros _ Hlen.
  pose proof (isValidFile_letter file Hlen) as Hfile.
  pose proof (isValidRank_Int rank) as Hrank.
  destruct (constructor_cases file rank)
    as [[Hf E] | [[Hf [Hk E]] | [Hf (z & Hz & Hb & E)]]]; rewrite E.
  - assert (Hn : ~ isFileLetter file).
    { intros H. apply Hfile in H. congruence. }
    split; [split; [intros _; exact Hn | reflexivity] |].
    split; [split; [discriminate | intros [H _]; contradiction] |].
    split; [intros e H; inversion H; auto |].
    intros p H; discriminate.
  - apply Hfile in Hf.
    assert (Hn : ~ isRankNumber rank).
    { intros H. apply Hrank in H. congruence. }
    split; [split; [discriminate | intros H; contradiction] |].
    split; [split; [intros _; split; assumption | reflexivity] |].
    split; [intros e H; inversion H; auto |].
    intros p H; discriminate.
  - apply Hfile in Hf. subst rank.
    assert (Hy : isRankNumber (Int z)) by (exists z; auto).
    split; [split; [discriminate | intros H; contradiction] |].
    split; [split; [discriminate | intros [_ H]; contradiction] |].
    split; [intros e H; discriminate |].
    intros p H. inversion H; subst p; clear H.
    destruct Hf as (c & -> & Hc).
    pose proof (isFileLetter_upper c (ex_intro _ c (conj eq_refl Hc)))
      as Hu.
    split; [reflexivity |]. split.
    + unfold onBoard. rewrite toUpperCase_unit.
      cbn [Position._file Position._rank].
      rewrite !andb_true_iff, !Z.leb_le. lia.
    + unfold Position.isValid. cbn [Position._file Position._rank].
      apply andb_true_iff; split.
      * apply isValidFile_upper. rewrite !toUpperCase_unit.
        exists (upperUnit c), []; split.
        -- rewrite (upperUnit_other (upperUnit c)) by lia. reflexivity.
        -- apply letter_range; lia.
      * apply isValidRank_Int; assumption.
Qed.

Lemma constructor_one_character_file_witness :
  (Position.constructor (lit "d") (Int 5) = Throw (InvalidFile (lit "d"))
     <-> ~ isFileLetter (lit "d"))
  /\ (Position.constructor (lit "d") (Int 5) = Throw (InvalidRank (Int 5))
     <-> isFileLetter (lit "d") /\ ~ isRankNumber (Int 5))
  /\ (forall e, Position.constructor (lit "d") (Int 5) = Throw e ->
        e = InvalidFile (lit "d") \/ e = InvalidRank (Int 5))
  /\ (forall p, Position.constructor (lit "d") (Int 5) = Ok p ->
        Position._file p = toUpperCase (lit "d")
        /\ onBoard p = true /\ Position.isValid p = true).
Proof.
  apply (constructor_one_character_file (lit "d") (Int 5));
    [reflexivity | apply le_n].
Defined.

(** ** Parsing of notation *)

Lemma isDigit_cases (d : Z) :
  isDigit d = true ->
  d = 48 \/ d = 49 \/ d = 50 \/ d = 51 \/ d = 52 \/ d = 53 \/ d = 54
  \/ d = 55 \/ d = 56 \/ d = 57.
Proof.
  unfold isDigit. rewrite andb_true_iff, !Z.leb_le. lia.
Qed.

(** [parseInt] of one character is its digit value, or NaN. *)
Lemma parseInt_unit (d : Z) :
  parseInt [d] = if isDigit d then Int (d - 48) else NaN.
Proof.
  destruct (isDigit d) eqn:Ed.
  - apply isDigit_cases in Ed.
    repeat destruct Ed as [-> | Ed]; try subst d; reflexivity.
  - unfold parseInt.
    change (skipWhiteSpace [d]) with (if isWhiteSpace d then [] else [d]).
    destruct (isWhiteSpace d); [reflexivity |].
    destruct (d =? 45); [reflexivity |].
    destruct (d =? 43); [reflexivity |].
    change (digitsValue None [d])
      with (if isDigit d then Some (10 * 0 + (d - 48)) else None).
    rewrite Ed. reflexivity.
Qed.

Lemma fromNotation_two (c d : Z) :
  Position.fromNotation [c; d]
  = Position.constructor [upperUnit c]
      (if isDigit d then Int (d - 48) else NaN).
Proof.
  unfold Position.fromNotation.
  change (charAt [c; d] 0) with [c]. change (charAt [c; d] 1) with [d].
  rewrite parseInt_unit, toUpperCase_unit. reflexivity.
Qed.

Lemma fromNotation_length (text : str) :
  List.length text <> 2%nat ->
  Position.fromNotation text = Throw (InvalidNotation text).
Proof.
  intros H. unfold Position.fromNotation.
  destruct text as [| c [| d [| e rest]]]; try reflexivity.
  exfalso; apply H; reflexivity.
Qed.

(** C7, as stated, fails: the text DD has a second character that is
    not a digit, and [fromNotation] does not fail on it with the
    notation error but with the rank error of construction, raised for
    the NaN that [parseInt] returns. *)
Lemma fromNotation_letter_for_digit :
  malformed (lit "DD")
  /\ Position.fromNotation (lit "DD") = Throw (InvalidRank NaN)
  /\ ~ (exists n, Position.fromNotation (lit "DD")
                  = Throw (InvalidNotation n)).
Proof.
  split; [right; reflexivity |].
  split; [reflexivity |].
  intros (n & H); discriminate H.
Qed.

(** C7, amended: for a text of ASCII characters, [fromNotation] fails
    with the notation error exactly when the text is not two characters
    long.  A text of two characters
    is handed to construction, with its first character in upper case
    and its second parsed as a digit: a first character outside A-H
    (either case) gives the file error, then a second character that is
    not a digit gives the rank error for NaN, a digit outside 1..8 the
    rank error for that digit, and otherwise the square is returned. *)
Theorem fromNotation_outcomes (text : str) :
  isAscii text = true ->
  ((exists n, Position.fromNotation text = Throw (InvalidNotation n))
     <-> List.length text <> 2%nat)
  /\ (List.length text <> 2%nat ->
      Position.fromNotation text = Throw (InvalidNotation text))
  /\ (forall c d, text = [c; d] ->
      (~ isFileLetter [c] ->
         Position.fromNotation text = Throw (InvalidFile [upperUnit c]))
      /\ (isFileLetter [c] -> isDigit d = false ->
         Position.fromNotation text = Throw (InvalidRank NaN))
      /\ (isFileLetter [c] -> isDigit d = true -> ~ 1 <= d - 48 <= 8 ->
         Position.fromNotation text = Throw (InvalidRank (Int (d - 48))))
      /\ (isFileLetter [c] -> 1 <= d - 48 <= 8 ->
         Position.fromNotation text
         = Ok (square (upperUnit c - 65) (d - 48)))).
Proof.
  intros _.
  assert (two : forall c d, text = [c; d] ->
    (~ isFileLetter [c] ->
       Position.fromNotation text = Throw (InvalidFile [upperUnit c]))
    /\ (isFileLetter [c] -> isDigit d = false ->
       Position.fromNotation text = Throw (InvalidRank NaN))
    /\ (isFileLetter [c] -> isDigit d = true -> ~ 1 <= d - 48 <= 8 ->
       Position.fromNotation text = Throw (InvalidRank (Int (d - 48))))
    /\ (isFileLetter [c] -> 1 <= d - 48 <= 8 ->
       Position.fromNotation text
       = Ok (square (upperUnit c - 65) (d - 48)))).
  { intros c d ->. rewrite fromNotation_two.
    set (rank := if isDigit d then Int (d - 48) else NaN).
    assert (Hup : isFileLetter [upperUnit c] <-> isFileLetter [c]).
    { unfold isFileLetter. split.
      - intros (x & H & Hx). inversion H; subst x; clear H.
        exists c; split; [reflexivity |].
        assert (Hc : c < 97 \/ 122 < c \/ 97 <= c <= 122) by lia.
        destruct Hc as [Hc | [Hc | Hc]].
        + rewrite upperUnit_other in Hx by lia. lia.
        + rewrite upperUnit_other in Hx by lia. lia.
        + rewrite upperUnit_lower in Hx by lia. lia.
      - intros H. apply isFileLetter_upper in H.
        exists (upperUnit c); split; [reflexivity | lia]. }
    assert (Hlen : (List.length [upperUnit c] <= 1)%nat) by apply le_n.
    pose proof (isValidFile_letter [upperUnit c] Hlen) as Hfile.
    rewrite Hup in Hfile.
    destruct (constructor_cases [upperUnit c] rank)
      as [[Hf E] | [[Hf [Hk E]] | [Hf (z & Hz & Hb & E)]]]; rewrite E.
    - assert (Hn : ~ isFileLetter [c]).
      { intros H. apply Hfile in H. congruence. }
      split; [reflexivity |].
      split; [intros H; contradiction |].
      split; intros H; contradiction.
    - apply Hfile in Hf.
      assert (Hn : ~ isRankNumber rank).
      { intros H. apply isValidRank_Int in H. congruence. }
      split; [intros H; contradiction |]. subst rank.
      split; [| split].
      + intros _ Hd. rewrite Hd. reflexivity.
      + intros _ Hd _. rewrite Hd. reflexivity.
      + intros _ Hd. exfalso. apply Hn.
        destruct (isDigit d) eqn:Ed.
        * exists (d - 48); auto.
        * unfold isDigit in Ed. apply andb_false_iff in Ed.
          rewrite !Z.leb_gt in Ed. lia.
    - apply Hfile in Hf. subst rank.
      split; [intros H; contradiction |].
      destruct (isDigit d) eqn:Ed; [| discriminate Hz].
      inversion Hz; subst z; clear Hz.
      split; [intros _ H; discriminate H |].
      split; [intros _ _ H; contradiction |].
      intros Hl _. apply isFileLetter_upper in Hl.
      unfold square. rewrite toUpperCase_unit.
      rewrite (upperUnit_other (upperUnit c)) by lia.
      replace (65 + (upperUnit c - 65)) with (upperUnit c) by lia.
      reflexivity. }
  split; [| split; [apply fromNotation_length | exact two]].
  split.
  - intros (n & H) Hlen.
    destruct text as [| c [| d [| e rest]]]; try (simpl in Hlen; lia).
    destruct (two c d eq_refl) as (H1 & H2 & H3 & H4).
    assert (Hl : isFileLetter [c] \/ ~ isFileLetter [c]).
    { unfold isFileLetter.
      assert (Hc : (65 <= c <= 72 \/ 97 <= c <= 104)
                   \/ ~ (65 <= c <= 72 \/ 97 <= c <= 104)) by lia.
      destruct Hc as [Hc | Hc].
      - left; exists c; auto.
      - right; intros (x & Hx & Hr); inversion Hx; subst; auto. }
    destruct Hl as [Hl | Hl]; [| rewrite (H1 Hl) in H; discriminate].
    destruct (isDigit d) eqn:Ed;
      [| rewrite (H2 Hl eq_refl) in H; discriminate].
    assert (Hr : 1 <= d - 48 <= 8 \/ ~ 1 <= d - 48 <= 8) by lia.
    destruct Hr as [Hr | Hr].
    + rewrite (H4 Hl Hr) in H; discriminate.
    + rewrite (H3 Hl eq_refl Hr) in H; discriminate.
  - intros Hlen. exists text. apply fromNotation_length; assumption.
Qed.

Lemma fromNotation_outcomes_witness :
  ((exists n, Position.fromNotation (lit "h8") = Throw (InvalidNotation n))
     <-> List.length (lit "h8") <> 2%nat)
  /\ (List.length (lit "h8") <> 2%nat ->
      Position.fromNotation (lit "h8") = Throw (InvalidNotation (lit "h8")))
  /\ (forall c d, lit "h8" = [c; d] ->
      (~ isFileLetter [c] ->
         Position.fromNotation (lit "h8") = Throw (InvalidFile [upperUnit c]))
      /\ (isFileLetter [c] -> isDigit d = false ->
         Position.fromNotation (lit "h8") = Throw (InvalidRank NaN))
      /\ (isFileLetter [c] -> isDigit d = true -> ~ 1 <= d - 48 <= 8 ->
         Position.fromNotation (lit "h8")
         = Throw (InvalidRank (Int (d - 48))))
      /\ (isFileLetter [c] -> 1 <= d - 48 <= 8 ->
         Position.fromNotation (lit "h8")
         = Ok (square (upperUnit c - 65) (d - 48)))).
Proof. apply (fromNotation_outcomes (lit "h8")). reflexivity. Defined.

(** ** Errors of the orchestrator *)

(** C8, as stated, fails: for the piece type Rook the dispatcher raises
    its error, and the orchestrator does not let it through: what its
    caller gets is a new error that carries the message of the first
    after a prefix. *)
Lemma orchestrator_rewords_dispatch_error :
  MovementStrategyFactory.createStrategy (lit "Rook")
  = Throw (NoMovementStrategy (lit "Rook"))
  /\ ChessMovementService.calculateValidMoves 8 (lit "Rook") (sq "E4")
     = Some (Throw (FailedToCalculateMoves (NoMovementStrategy (lit "Rook"))))
  /\ FailedToCalculateMoves (NoMovementStrategy (lit "Rook"))
     <> NoMovementStrategy (lit "Rook").
Proof.
  split; [reflexivity |]. split; [reflexivity | discriminate].
Qed.

Lemma constructor_Throw (file : str) (rank : number) (e : error) :
  Position.constructor file rank = Throw e ->
  e = InvalidFile file \/ e = InvalidRank rank.
Proof.
  intros H.
  destruct (constructor_cases file rank)
    as [[_ E] | [[_ [_ E]] | [_ (z & _ & _ & E)]]];
    rewrite E in H; try discriminate; injection H as <-; auto.
Qed.

(** C8, amended: the orchestrator catches every error raised inside it
    and raises a new one made of a prefix and the message caught, so
    each of its failures is such a wrapped error.  It fails so for
    every piece type other than Pawn, King and Queen, with the error
    of the dispatcher inside, and it does not fail for one of these
    three on a valid square.  The dispatcher and the operations of
    Position do not catch or wrap: the dispatcher raises its own error,
    exactly for a piece type other than the three; an error of
    [fromNotation] (on an ASCII text) is the notation error, for a text
    that is not two characters long, or else the very error that the
    constructor raised, a file or a rank error; and an error of
    [fromCoordinates] (for an index whose character is ASCII) is the
    file or rank error that the constructor raised. *)
Theorem orchestrator_wraps_errors (fuel : nat) (pieceType : PieceType.t)
  (p : Position.t) :
  ~ In pieceType [PieceType.PAWN; PieceType.KING; PieceType.QUEEN] ->
  MovementStrategyFactory.createStrategy pieceType
  = Throw (NoMovementStrategy pieceType)
  /\ ChessMovementService.calculateValidMoves fuel pieceType p
     = Some (Throw (FailedToCalculateMoves (NoMovementStrategy pieceType)))
  /\ (forall fuel' kind q e,
      ChessMovementService.calculateValidMoves fuel' kind q
      = Some (Throw e) ->
      exists cause, e = FailedToCalculateMoves cause /\
        ChessMovementService.tryBlock fuel' kind q = Some (Throw cause))
  /\ (forall kind,
      MovementStrategyFactory.createStrategy kind
      = Throw (NoMovementStrategy kind)
      <-> ~ In kind [PieceType.PAWN; PieceType.KING; PieceType.QUEEN])
  /\ (forall kind e,
      MovementStrategyFactory.createStrategy kind = Throw e ->
      e = NoMovementStrategy kind)
  /\ (forall fuel' kind q,
      (8 <= fuel')%nat ->
      In kind [PieceType.PAWN; PieceType.KING; PieceType.QUEEN] ->
      onBoard q = true ->
      exists l,
        ChessMovementService.calculateValidMoves fuel' kind q
        = Some (Ok l))
  /\ (forall text e,
      isAscii text = true ->
      Position.fromNotation text = Throw e ->
      (List.length text <> 2%nat /\ e = InvalidNotation text)
      \/ (exists c d, text = [c; d]
            /\ Position.constructor [upperUnit c] (parseInt [d]) = Throw e
            /\ (e = InvalidFile [upperUnit c]
                \/ e = InvalidRank (parseInt [d]))))
  /\ (forall i rank e,
      -65 <= i < 63 ->
      Position.fromCoordinates i rank = Throw e ->
      Position.constructor [65 + i] rank = Throw e
      /\ (e = InvalidFile [65 + i] \/ e = InvalidRank rank)).
Proof.
  intros Hno.
  assert (Hdispatch : forall kind,
    MovementStrategyFactory.createStrategy kind
    = Throw (NoMovementStrategy kind)
    <-> ~ In kind [PieceType.PAWN; PieceType.KING; PieceType.QUEEN]).
  { intros kind.
    destruct (createStrategy_cases kind)
      as [[Hk E] | [[Hk E] | [[Hk E] | [Hk E]]]]; rewrite E.
    - split; [discriminate |]. intros H; exfalso; apply H; simpl; auto.
    - split; [discriminate |]. intros H; exfalso; apply H; simpl; auto.
    - split; [discriminate |]. intros H; exfalso; apply H; simpl; auto.
    - split; auto. }
  pose proof (proj2 (Hdispatch pieceType) Hno) as Hthrow.
  split; [exact Hthrow |].
  split.
  { unfold ChessMovementService.calculateValidMoves,
      ChessMovementService.tryBlock.
    rewrite Hthrow. reflexivity. }
  split.
  { intros fuel' kind q e H.
    unfold ChessMovementService.calculateValidMoves in H.
    destruct (ChessMovementService.tryBlock fuel' kind q)
      as [[l | cause] |]; try discriminate.
    injection H as <-. exists cause; auto. }
  split; [exact Hdispatch |].
  split.
  { intros kind e H.
    destruct (createStrategy_cases kind)
      as [[_ E] | [[_ E] | [[_ E] | [_ E]]]]; rewrite E in H;
      try discriminate; injection H as <-; reflexivity. }
  split.
  { intros fuel' kind q Hfuel Hk Hq.
    assert (Hs : exists s, isRule s /\
      MovementStrategyFactory.createStrategy kind = Ok s).
    { destruct (createStrategy_cases kind)
        as [[_ E] | [[_ E] | [[_ E] | [Hn _]]]];
        [ exists PawnMovementStrategy | exists KingMovementStrategy
        | exists QueenMovementStrategy | contradiction ];
        (split; [unfold isRule; auto | exact E]). }
    destruct Hs as (s & Hs & Es).
    destruct (rule_moves_on_board s fuel' q Hs Hfuel Hq)
      as (raw & Eraw & _).
    exists (PositionSorter.sortAndDeduplicate raw).
    unfold ChessMovementService.calculateValidMoves,
      ChessMovementService.tryBlock.
    rewrite Es. cbn [runBind]. rewrite Eraw. reflexivity. }
  split.
  { intros text e _ H.
    destruct text as [| c [| d [| x rest]]];
      try (left; split; [simpl; lia |];
           rewrite fromNotation_length in H by (simpl; lia);
           injection H as <-; reflexivity).
    right. exists c, d. split; [reflexivity |].
    unfold Position.fromNotation in H.
    change (charAt [c; d] 0) with [c] in H.
    change (charAt [c; d] 1) with [d] in H.
    rewrite toUpperCase_unit in H.
    split; [exact H | apply constructor_Throw; exact H]. }
  intros i rank e Hi H.
  unfold Position.fromCoordinates, fromCharCode in H.
  rewrite Z.mod_small in H by lia.
  split; [exact H | apply constructor_Throw; exact H].
Qed.

Lemma orchestrator_wraps_errors_witness :
  MovementStrategyFactory.createStrategy (lit "Rook")
  = Throw (NoMovementStrategy (lit "Rook"))
  /\ ChessMovementService.calculateValidMoves 8 (lit "Rook") (sq "E4")
     = Some (Throw (FailedToCalculateMoves (NoMovementStrategy (lit "Rook"))))
  /\ (forall fuel' kind q e,
      ChessMovementService.calculateValidMoves fuel' kind q
      = Some (Throw e) ->
      exists cause, e = FailedToCalculateMoves cause /\
        ChessMovementService.tryBlock fuel' kind q = Some (Throw cause))
  /\ (forall kind,
      MovementStrategyFactory.createStrategy kind
      = Throw (NoMovementStrategy kind)
      <-> ~ In kind [PieceType.PAWN; PieceType.KING; PieceType.QUEEN])
  /\ (forall kind e,
      MovementStrategyFactory.createStrategy kind = Throw e ->
      e = NoMovementStrategy kind)
  /\ (forall fuel' kind q,
      (8 <= fuel')%nat ->
      In kind [PieceType.PAWN; PieceType.KING; PieceType.QUEEN] ->
      onBoard q = true ->
      exists l,
        ChessMovementService.calculateValidMoves fuel' kind q
        = Some (Ok l))
  /\ (forall text e,
      isAscii text = true ->
      Position.fromNotation text = Throw e ->
      (List.length text <> 2%nat /\ e = InvalidNotation text)
      \/ (exists c d, text = [c; d]
            /\ Position.constructor [upperUnit c] (parseInt [d]) = Throw e
            /\ (e = InvalidFile [upperUnit c]
                \/ e = InvalidRank (parseInt [d]))))
  /\ (forall i rank e,
      -65 <= i < 63 ->
      Position.fromCoordinates i rank = Throw e ->
      Position.constructor [65 + i] rank = Throw e
      /\ (e = InvalidFile [65 + i] \/ e = InvalidRank rank)).
Proof.
  apply (orchestrator_wraps_errors 8 (lit "Rook") (sq "E4")).
  intros H. vm_compute in H.
  destruct H as [H | [H | [H | []]]]; discriminate H.
Defined.

(** ** Removal of duplicates *)

Section FindIndex.

Variable A : Type.
Variable pred : A -> bool.

Lemma findIndex_range (l : list A) :
  -1 <= PositionSorter.findIndex pred l < Z.of_nat (List.length l).
Proof.
  induction l as [| x l IH]; simpl List.length;
    cbn [PositionSorter.findIndex]; [lia |].
  destruct (pred x); [lia |].
  destruct (PositionSorter.findIndex pred l <? 0) eqn:E; [lia |].
  apply Z.ltb_ge in E. lia.
Qed.

Lemma findIndex_none (l : list A) :
  (forall y, In y l -> pred y = false) ->
  PositionSorter.findIndex pred l = -1.
Proof.
  induction l as [| x l IH]; intros H; cbn [PositionSorter.findIndex];
    [reflexivity |].
  rewrite (H x (or_introl eq_refl)).
  rewrite IH by (intros y Hy; apply H; right; assumption).
  reflexivity.
Qed.

Lemma findIndex_some (l : list A) (y : A) :
  In y l -> pred y = true -> 0 <= PositionSorter.findIndex pred l.
Proof.
  induction l as [| x l IH]; intros Hin Hy; [contradiction |].
  cbn [PositionSorter.findIndex].
  destruct (pred x) eqn:Ex; [lia |].
  destruct Hin as [-> | Hin]; [congruence |].
  specialize (IH Hin Hy).
  destruct (PositionSorter.findIndex pred l <? 0) eqn:E;
    [apply Z.ltb_lt in E; lia | lia].
Qed.

Lemma findIndex_app (pre suf : list A) :
  PositionSorter.findIndex pred (pre ++ suf)
  = if 0 <=? PositionSorter.findIndex pred pre
    then PositionSorter.findIndex pred pre
    else if PositionSorter.findIndex pred suf <? 0 then -1
         else Z.of_nat (List.length pre) + PositionSorter.findIndex pred suf.
Proof.
  induction pre as [| x pre IH].
  - change ([] ++ suf) with suf. cbn [PositionSorter.findIndex List.length].
    change (0 <=? -1) with false. cbv iota.
    pose proof (findIndex_range suf) as Hs.
    destruct (PositionSorter.findIndex pred suf <? 0) eqn:E.
    + apply Z.ltb_lt in E. lia.
    + change (Z.of_nat 0) with 0. lia.
  - change ((x :: pre) ++ suf) with (x :: (pre ++ suf)).
    cbn [PositionSorter.findIndex]. rewrite IH.
    destruct (pred x); [reflexivity |].
    pose proof (findIndex_range pre) as Hr.
    destruct (0 <=? PositionSorter.findIndex pred pre) eqn:E1.
    + apply Z.leb_le in E1.
      destruct (PositionSorter.findIndex pred pre <? 0) eqn:E2;
        [apply Z.ltb_lt in E2; lia |].
      destruct (0 <=? PositionSorter.findIndex pred pre + 1) eqn:E3;
        [reflexivity | apply Z.leb_gt in E3; lia].
    + apply Z.leb_gt in E1.
      destruct (PositionSorter.findIndex pred pre <? 0) eqn:E2;
        [| apply Z.ltb_ge in E2; lia].
      change (0 <=? -1) with false. cbv iota.
      pose proof (findIndex_range suf) as Hs.
      destruct (PositionSorter.findIndex pred suf <? 0) eqn:E3.
      * reflexivity.
      * apply Z.ltb_ge in E3.
        destruct (Z.of_nat (List.length pre)
                  + PositionSorter.findIndex pred suf <? 0) eqn:E4;
          [apply Z.ltb_lt in E4; lia |].
        cbn [List.length]. rewrite Nat2Z.inj_succ. lia.
Qed.

End FindIndex.

(** The test of the filter: an element is kept at the position of its
    first occurrence. *)
Lemma first_occurrence (pre suf : list Position.t) (x : Position.t) :
  (PositionSorter.findIndex (fun q => Position.equals q x)
     (pre ++ x :: suf) =? Z.of_nat (List.length pre)) = true
  <-> ~ In x pre.
Proof.
  rewrite findIndex_app.
  pose proof (findIndex_range _ (fun q => Position.equals q x) pre) as Hr.
  split.
  - intros H Hin.
    pose proof (findIndex_some _ (fun q => Position.equals q x) pre x Hin
                  (equals_refl x)) as H0.
    destruct (0 <=? PositionSorter.findIndex
                      (fun q => Position.equals q x) pre) eqn:E;
      [| apply Z.leb_gt in E; lia].
    apply Z.eqb_eq in H. lia.
  - intros Hn.
    rewrite (findIndex_none _ _ pre).
    + change (0 <=? -1) with false. cbv iota.
      cbn [PositionSorter.findIndex]. rewrite equals_refl.
      change (0 <? 0) with false. cbv iota.
      apply Z.eqb_eq. lia.
    + intros y Hy. apply equals_false_iff. intros ->. contradiction.
Qed.

Lemma filterFrom_first_occurrences (positions : list Position.t) :
  forall suf pre, positions = pre ++ suf ->
  let kept :=
    PositionSorter.filterFrom
      (fun position index =>
         PositionSorter.findIndex (fun q => Position.equals q position)
           positions =? index)
      (Z.of_nat (List.length pre)) suf in
  NoDup kept /\ forall y, In y kept <-> In y suf /\ ~ In y pre.
Proof.
  induction suf as [| x suf IH]; intros pre Hp; cbn zeta.
  - cbn [PositionSorter.filterFrom]. split; [constructor |].
    intros y; split; [intros [] | intros [[] _]].
  - cbn [PositionSorter.filterFrom].
    assert (Hp' : positions = (pre ++ [x]) ++ suf)
      by (rewrite <- app_assoc; exact Hp).
    specialize (IH (pre ++ [x]) Hp'). cbn zeta in IH.
    replace (Z.of_nat (List.length (pre ++ [x])))
      with (Z.of_nat (List.length pre) + 1) in IH
      by (rewrite length_app; simpl; lia).
    destruct IH as [IHn IHi].
    pose proof (first_occurrence pre suf x) as Hx. rewrite <- Hp in Hx.
    destruct (PositionSorter.findIndex (fun q => Position.equals q x)
                positions =? Z.of_nat (List.length pre)) eqn:E.
    + assert (Hnx : ~ In x pre) by (apply Hx; reflexivity).
      split.
      * constructor; [| assumption].
        intros Hin. apply IHi in Hin as [_ Hin].
        apply Hin, in_or_app; right; left; reflexivity.
      * intros y; split.
        -- intros [<- | Hy]; [split; [left; reflexivity | assumption] |].
           apply IHi in Hy as [Hy Hn]. split; [right; assumption |].
           intros Hin; apply Hn, in_or_app; left; assumption.
        -- intros [[<- | Hy] Hn]; [left; reflexivity |].
           destruct (Position.equals x y) eqn:Exy.
           ++ apply equals_true_iff in Exy. left; assumption.
           ++ apply equals_false_iff in Exy. right. apply IHi.
              split; [assumption |].
              intros Hin; apply in_app_or in Hin as [Hin | [Hin | []]];
                [contradiction | congruence].
    + assert (Hix : In x pre).
      { destruct (existsb (Position.equals x) pre) eqn:Ex.
        - apply existsb_equals_In in Ex; assumption.
        - exfalso. assert (Hn : ~ In x pre).
          { intros Hin. apply existsb_equals_In in Hin. congruence. }
          apply Hx in Hn. discriminate. }
      split; [assumption |].
      intros y; split.
      * intros Hy. apply IHi in Hy as [Hy Hn]. split; [right; assumption |].
        intros Hin; apply Hn, in_or_app; left; assumption.
      * intros [[<- | Hy] Hn]; [contradiction |].
        apply IHi. split; [assumption |].
        intros Hin; apply in_app_or in Hin as [Hin | [Hin | []]];
          [contradiction | subst; contradiction].
Qed.

(** ** Sorting *)

Lemma localeCompare_unit (c d : Z) :
  localeCompare [c] [d] = if c <? d then -1 else if d <? c then 1 else 0.
Proof. reflexivity. Qed.

(** On files of one character the comparator orders by file, then by
    rank. *)
Lemma compare_fileRankLe (a b : Position.t) :
  oneLetter a -> oneLetter b ->
  ((PositionSorter.compare a b <=? 0) = true <-> fileRankLe a b)
  /\ ((PositionSorter.compare a b <=? 0) = false -> fileRankLe b a).
Proof.
  intros [c Hc] [d Hd].
  unfold PositionSorter.compare, Position.file, Position.rank, fileRankLe.
  rewrite Hc, Hd, localeCompare_unit.
  destruct (c <? d) eqn:E1; [| destruct (d <? c) eqn:E2];
    try apply Z.ltb_lt in E1; try apply Z.ltb_ge in E1;
    try apply Z.ltb_lt in E2; try apply Z.ltb_ge in E2;
    cbn [negb Z.eqb].
  - split; [| discriminate].
    split; [intros _ | reflexivity].
    exists c, d; auto.
  - split.
    + split; [discriminate |].
      intros (c' & d' & H1 & H2 & H); inversion H1; inversion H2; subst.
      lia.
    + intros _. exists d, c; auto.
  - assert (c = d) by lia. subst d.
    change (negb (0 =? 0)) with false. cbv iota. split.
    + rewrite Z.leb_le. split.
      * intros H. exists c, c. repeat split; auto. right; split; lia.
      * intros (c' & d' & H1 & H2 & H); inversion H1; inversion H2; subst.
        lia.
    + rewrite Z.leb_gt. intros H. exists c, c. repeat split; auto.
      right; split; lia.
Qed.

Lemma fileRankLe_trans (a b c : Position.t) :
  fileRankLe a b -> fileRankLe b c -> fileRankLe a c.
Proof.
  intros (x & y & Hx & Hy & H1) (y' & z & Hy' & Hz & H2).
  rewrite Hy in Hy'; inversion Hy'; subst y'.
  exists x, z; repeat split; auto. lia.
Qed.

Lemma fileRankLe_strict (a b : Position.t) :
  fileRankLe a b -> a <> b -> fileRankLt a b.
Proof.
  intros (x & y & Hx & Hy & H) Hne.
  exists x, y; repeat split; auto.
  destruct H as [H | [H1 H2]]; [left; assumption |].
  assert (Position._rank a <> Position._rank b).
  { intros Hr. apply Hne. destruct a, b; simpl in *. congruence. }
  lia.
Qed.

Lemma insert_In (x y : Position.t) (l : list Position.t) :
  In y (PositionSorter.insert x l) <-> y = x \/ In y l.
Proof.
  induction l as [| z l IH]; cbn [PositionSorter.insert].
  - simpl; intuition.
  - destruct (PositionSorter.compare x z <=? 0).
    + simpl; intuition.
    + simpl. rewrite IH. intuition.
Qed.

Lemma insert_sorted (x : Position.t) (l : list Position.t) :
  oneLetter x -> Forall oneLetter l ->
  StronglySorted fileRankLe l ->
  StronglySorted fileRankLe (PositionSorter.insert x l).
Proof.
  intros Hx Hl Hs.
  induction Hs as [| z l Hs IH Hz]; cbn [PositionSorter.insert].
  - constructor; constructor.
  - inversion Hl as [| ? ? Hoz Hol]; subst.
    destruct (compare_fileRankLe x z Hx Hoz) as [Hle Hgt].
    destruct (PositionSorter.compare x z <=? 0).
    + assert (Hxz : fileRankLe x z) by (apply Hle; reflexivity).
      constructor; [constructor; assumption |].
      constructor; [assumption |].
      rewrite Forall_forall in Hz |- *.
      intros y Hy. apply fileRankLe_trans with z; auto.
    + constructor; [apply IH; assumption |].
      rewrite Forall_forall in Hz |- *.
      intros y Hy. apply insert_In in Hy as [-> | Hy]; auto.
Qed.

Lemma sort_In (l : list Position.t) (y : Position.t) :
  In y (PositionSorter.sort l) <-> In y l.
Proof.
  unfold PositionSorter.sort.
  induction l as [| x l IH]; cbn [fold_right]; [reflexivity |].
  rewrite insert_In, IH. simpl; intuition.
Qed.

Lemma insert_NoDup (x : Position.t) (l : list Position.t) :
  ~ In x l -> NoDup l -> NoDup (PositionSorter.insert x l).
Proof.
  intros Hx Hl. induction Hl as [| z l Hz Hl IH];
    cbn [PositionSorter.insert].
  - constructor; [intros [] | constructor].
  - destruct (PositionSorter.compare x z <=? 0).
    + constructor; [assumption | constructor; assumption].
    + constructor.
      * intros Hin. apply insert_In in Hin as [-> | Hin];
          [apply Hx; left; reflexivity | contradiction].
      * apply IH. intros Hin; apply Hx; right; assumption.
Qed.

Lemma sort_NoDup (l : list Position.t) :
  NoDup l -> NoDup (PositionSorter.sort l).
Proof.
  unfold PositionSorter.sort.
  induction 1 as [| x l Hx Hl IH]; cbn [fold_right]; [constructor |].
  apply insert_NoDup; [| assumption].
  intros Hin. apply (sort_In l x) in Hin. contradiction.
Qed.

Lemma sort_sorted (l : list Position.t) :
  Forall oneLetter l -> StronglySorted fileRankLe (PositionSorter.sort l).
Proof.
  unfold PositionSorter.sort.
  induction 1 as [| x l Hx Hl IH]; cbn [fold_right]; [constructor |].
  apply insert_sorted; [assumption | | assumption].
  rewrite Forall_forall in Hl |- *.
  intros y Hy. apply Hl. apply (sort_In l y). exact Hy.
Qed.

Lemma sorted_strict (l : list Position.t) :
  NoDup l -> StronglySorted fileRankLe l -> StronglySorted fileRankLt l.
Proof.
  intros Hn Hs. induction Hs as [| x l Hs IH Hx]; [constructor |].
  inversion Hn as [| ? ? Hnx Hnl]; subst.
  constructor; [apply IH; assumption |].
  rewrite Forall_forall in Hx |- *.
  intros y Hy. apply fileRankLe_strict; [apply Hx; assumption |].
  intros ->. contradiction.
Qed.

(** [sortAndDeduplicate] on squares with a file of one character: the
    result has the squares of the input, each once, by file then by
    rank. *)
Lemma sortAndDeduplicate_sorted (positions : list Position.t) :
  Forall oneLetter positions ->
  let out := PositionSorter.sortAndDeduplicate positions in
  NoDup out /\ StronglySorted fileRankLt out
  /\ forall y, In y out <-> In y positions.
Proof.
  intros Hl. cbn zeta. unfold PositionSorter.sortAndDeduplicate.
  destruct (filterFrom_first_occurrences positions positions [] eq_refl)
    as [Hn Hi].
  cbn zeta in Hn, Hi. change (Z.of_nat (List.length (@nil Position.t)))
    with 0 in Hn, Hi.
  set (unique := PositionSorter.filterFrom _ 0 positions) in *.
  assert (Hin : forall y, In y (PositionSorter.sort unique)
                          <-> In y positions).
  { intros y. rewrite sort_In, Hi. simpl; intuition. }
  split; [apply sort_NoDup; assumption |].
  split; [| assumption].
  apply sorted_strict; [apply sort_NoDup; assumption |].
  apply sort_sorted.
  rewrite Forall_forall in Hl |- *.
  intros y Hy. apply Hl. apply Hi in Hy as [Hy _]. assumption.
Qed.

Lemma onBoard_oneLetter (p : Position.t) : onBoard p = true -> oneLetter p.
Proof.
  intros H. apply onBoard_square in H as (i & r & -> & _).
  exists (65 + i). reflexivity.
Qed.



(** ** Examples of the specification *)

Example king_from_D5 :
  ChessMovementService.calculateValidMoves 8 PieceType.KING (sq "D5")
  = Some (Ok (map sq ["C4"; "C5"; "C6"; "D4"; "D6"; "E4"; "E5"; "E6"]%string)).
Proof. reflexivity. Qed.

Example pawn_from_G1 :
  ChessMovementService.calculateValidMoves 8 PieceType.PAWN (sq "G1")
  = Some (Ok [sq "G2"]).
Proof. reflexivity. Qed.

Example fromNotation_I5 :
  Position.fromNotation (lit "I5") = Throw (InvalidFile (lit "I")).
Proof. reflexivity. Qed.

Example fromNotation_D0 :
  Position.fromNotation (lit "D0") = Throw (InvalidRank (Int 0)).
Proof. reflexivity. Qed.

Example fromNotation_D :
  Position.fromNotation (lit "D") = Throw (InvalidNotation (lit "D")).
Proof. reflexivity. Qed.

Example fromNotation_D55 :
  Position.fromNotation (lit "D55") = Throw (InvalidNotation (lit "D55")).
Proof. reflexivity. Qed.

Example constructor_rank_one_and_a_half :
  Position.constructor (lit "A") (Frac 1) = Throw (InvalidRank (Frac 1)).
Proof. reflexivity. Qed.

Example fromCoordinates_8 :
  Position.fromCoordinates 8 (Int 1) = Throw (InvalidFile (lit "I")).
Proof. reflexivity. Qed.

Example fromCoordinates_minus_1 :
  Position.fromCoordinates (-1) (Int 1) = Throw (InvalidFile (lit "@")).
Proof. reflexivity. Qed.

(** * Further properties *)

(** ** The ray loop *)

Lemma fileIndex_square (a b : Z) : Position.fileIndex (square a b) = Some a.
Proof.
  unfold Position.fileIndex, square. cbn [Position._file charCodeAt0 option_map].
  f_equal. lia.
Qed.

Lemma inside_bounds (a b : Z) :
  inside a b = true <-> 0 <= a <= 7 /\ 1 <= b <= 8.
Proof.
  unfold inside. rewrite !andb_true_iff, !Z.leb_le. lia.
Qed.

Lemma inside_false (a b : Z) :
  inside a b = false <-> a < 0 \/ 7 < a \/ b < 1 \/ 8 < b.
Proof.
  destruct (inside a b) eqn:E.
  - apply inside_bounds in E. split; [discriminate | lia].
  - split; [intros _ | reflexivity].
    destruct (Z_lt_dec a 0); [auto |].
    destruct (Z_lt_dec 7 a); [auto |].
    destruct (Z_lt_dec b 1); [auto |].
    destruct (Z_lt_dec 8 b); [auto |].
    assert (H : inside a b = true) by (apply inside_bounds; lia).
    congruence.
Qed.

Lemma offset_square (a b fileOffset rankOffset : Z) :
  Position.offset (square a b) fileOffset rankOffset
  = if inside (a + fileOffset) (b + rankOffset)
    then Ok (Some (square (a + fileOffset) (b + rankOffset)))
    else Ok None.
Proof.
  destruct (inside (a + fileOffset) (b + rankOffset)) eqn:E.
  - apply inside_bounds in E as [H1 H2].
    rewrite (offset_inside (square a b) a fileOffset rankOffset
               (fileIndex_square a b) H1 H2).
    cbn [square Position._rank].
    rewrite fromCoordinates_board by assumption. reflexivity.
  - apply inside_false in E.
    apply (offset_outside (square a b) a); [apply fileIndex_square | exact E].
Qed.

Lemma line_succ (a b fileDirection rankDirection : Z) (n : nat) :
  line a b fileDirection rankDirection (S n)
  = square (a + fileDirection) (b + rankDirection)
    :: line (a + fileDirection) (b + rankDirection)
         fileDirection rankDirection n.
Proof.
  unfold line. cbn [seq map]. f_equal.
  - f_equal; lia.
  - rewrite <- seq_shift, map_map. apply map_ext.
    intros k. rewrite Nat2Z.inj_succ. f_equal; ring.
Qed.

Section Ray.

Variables fileDirection rankDirection : Z.
Hypothesis moving : fileDirection <> 0 \/ rankDirection <> 0.
Variable maxSteps : option Z.

Lemma reach_bounds (a b : Z) :
  inside a b = true -> 0 <= reach a b fileDirection rankDirection <= 7.
Proof.
  intros H. apply inside_bounds in H. unfold reach.
  destruct (0 <? fileDirection); [lia |].
  destruct (fileDirection <? 0); [lia |].
  destruct (0 <? rankDirection); lia.
Qed.

Lemma reach_decreases (a b : Z) :
  inside a b = true ->
  inside (a + fileDirection) (b + rankDirection) = true ->
  reach (a + fileDirection) (b + rankDirection) fileDirection rankDirection
  < reach a b fileDirection rankDirection.
Proof.
  intros H H'. apply inside_bounds in H, H'. unfold reach.
  destruct (0 <? fileDirection) eqn:E1; [apply Z.ltb_lt in E1; lia |].
  destruct (fileDirection <? 0) eqn:E2; [apply Z.ltb_lt in E2; lia |].
  apply Z.ltb_ge in E1, E2.
  destruct (0 <? rankDirection) eqn:E3; [apply Z.ltb_lt in E3; lia |].
  apply Z.ltb_ge in E3. lia.
Qed.

(** The loop from any of its states: it stops within [reach] steps, at
    the edge or at the limit, having appended the squares of the
    line. *)
Lemma loop_line (fuel : nat) :
  forall a b steps moves,
  inside a b = true ->
  reach a b fileDirection rankDirection < Z.of_nat fuel ->
  exists n : nat,
    Z.of_nat n <= reach a b fileDirection rankDirection
    /\ BaseMovementStrategy.loop fuel fileDirection rankDirection maxSteps
         moves steps (square a b)
       = Some (Ok (moves ++ line a b fileDirection rankDirection n))
    /\ (forall k, (1 <= k <= n)%nat ->
          inside (a + Z.of_nat k * fileDirection)
                 (b + Z.of_nat k * rankDirection) = true)
    /\ (forall m, maxSteps = Some m ->
          steps + Z.of_nat n <= Z.max steps m)
    /\ (inside (a + Z.of_nat (S n) * fileDirection)
               (b + Z.of_nat (S n) * rankDirection) = false
        \/ exists m, maxSteps = Some m /\
                     steps + Z.of_nat n = Z.max steps m).
Proof.
  induction fuel as [| fuel IH]; intros a b steps moves Hin Hfuel.
  - pose proof (reach_bounds a b Hin). simpl in Hfuel. lia.
  - cbn [BaseMovementStrategy.loop].
    destruct (match maxSteps with
              | Some m => steps <? m
              | None => true
              end) eqn:Hgo.
    + rewrite offset_square.
      destruct (inside (a + fileDirection) (b + rankDirection)) eqn:Hnext.
      * pose proof (reach_decreases a b Hin Hnext) as Hdec.
        destruct (IH (a + fileDirection) (b + rankDirection) (steps + 1)
                    (moves ++ [square (a + fileDirection)
                                      (b + rankDirection)]) Hnext)
          as (n & Hn & Hrun & Hall & Hlim & Hstop); [lia |].
        exists (S n). split; [lia |]. split.
        { rewrite Hrun, line_succ, <- app_assoc. reflexivity. }
        split.
        { intros k Hk. destruct k as [| k]; [lia |].
          destruct k as [| k].
          - replace (a + Z.of_nat 1 * fileDirection)
              with (a + fileDirection) by lia.
            replace (b + Z.of_nat 1 * rankDirection)
              with (b + rankDirection) by lia.
            exact Hnext.
          - specialize (Hall (S k)).
            replace (a + Z.of_nat (S (S k)) * fileDirection)
              with (a + fileDirection + Z.of_nat (S k) * fileDirection)
              by (rewrite (Nat2Z.inj_succ (S k)); ring).
            replace (b + Z.of_nat (S (S k)) * rankDirection)
              with (b + rankDirection + Z.of_nat (S k) * rankDirection)
              by (rewrite (Nat2Z.inj_succ (S k)); ring).
            apply Hall. lia. }
        assert (Hm : forall m, maxSteps = Some m -> steps < m).
        { intros m Em. rewrite Em in Hgo. apply Z.ltb_lt. exact Hgo. }
        split.
        { intros m Em. specialize (Hlim m Em). specialize (Hm m Em). lia. }
        destruct Hstop as [Hout | (m & Em & Hs)].
        { left.
          replace (a + Z.of_nat (S (S n)) * fileDirection)
            with (a + fileDirection + Z.of_nat (S n) * fileDirection)
            by (rewrite (Nat2Z.inj_succ (S n)); ring).
          replace (b + Z.of_nat (S (S n)) * rankDirection)
            with (b + rankDirection + Z.of_nat (S n) * rankDirection)
            by (rewrite (Nat2Z.inj_succ (S n)); ring).
          exact Hout. }
        { right. exists m. split; [exact Em |].
          specialize (Hm m Em). lia. }
      * exists 0%nat. pose proof (reach_bounds a b Hin).
        split; [simpl; lia |]. split.
        { unfold line; cbn [seq map]. rewrite app_nil_r. reflexivity. }
        split; [intros k Hk; lia |].
        split; [intros m _; simpl; lia |].
        left.
        replace (a + Z.of_nat 1 * fileDirection)
          with (a + fileDirection) by lia.
        replace (b + Z.of_nat 1 * rankDirection)
          with (b + rankDirection) by lia.
        exact Hnext.
    + destruct maxSteps as [m |] eqn:Em; [| discriminate].
      apply Z.ltb_ge in Hgo.
      exists 0%nat. pose proof (reach_bounds a b Hin).
      split; [simpl; lia |]. split.
      { unfold line; cbn [seq map]. rewrite app_nil_r. reflexivity. }
      split; [intros k Hk; lia |].
      split; [intros m' _; simpl; lia |].
      right. exists m. split; [reflexivity | simpl; lia].
Qed.

End Ray.

(** X1: from a square of the board, in a direction that is not (0,0)
    and with or without a limit, [generateMovesInDirection] returns
    within 8 iterations, without error, the squares at 1, ..., n steps
    of the direction in that order; they are all on the board, n is at
    most 7 and at most the limit, and the loop stopped because the
    next square is off the board or because the limit was reached. *)
Theorem generateMovesInDirection_line (fuel : nat)
  (a b fileDirection rankDirection : Z) (maxSteps : option Z) :
  (8 <= fuel)%nat -> inside a b = true ->
  fileDirection <> 0 \/ rankDirection <> 0 ->
  exists n : nat,
    (n <= 7)%nat
    /\ BaseMovementStrategy.generateMovesInDirection fuel (square a b)
         fileDirection rankDirection maxSteps
       = Some (Ok (line a b fileDirection rankDirection n))
    /\ (forall k, (1 <= k <= n)%nat ->
          inside (a + Z.of_nat k * fileDirection)
                 (b + Z.of_nat k * rankDirection) = true)
    /\ (forall m, maxSteps = Some m -> Z.of_nat n <= Z.max 0 m)
    /\ (inside (a + Z.of_nat (S n) * fileDirection)
               (b + Z.of_nat (S n) * rankDirection) = false
        \/ exists m, maxSteps = Some m /\ Z.of_nat n = Z.max 0 m).
Proof.
  intros Hfuel Hin Hmove.
  pose proof (reach_bounds fileDirection rankDirection a b Hin) as Hr.
  destruct (loop_line fileDirection rankDirection Hmove maxSteps fuel
              a b 0 [] Hin) as (n & Hn & Hrun & Hall & Hlim & Hstop);
    [lia |].
  exists n. split; [lia |]. split; [exact Hrun |].
  split; [exact Hall |]. split; [| exact Hstop].
  intros m Em. specialize (Hlim m Em). lia.
Qed.

Lemma generateMovesInDirection_line_witness :
  exists n : nat,
    (n <= 7)%nat
    /\ BaseMovementStrategy.generateMovesInDirection 8 (square 4 4)
         1 (-1) (Some 2)
       = Some (Ok (line 4 4 1 (-1) n))
    /\ (forall k, (1 <= k <= n)%nat ->
          inside (4 + Z.of_nat k * 1) (4 + Z.of_nat k * (-1)) = true)
    /\ (forall m, Some 2 = Some m -> Z.of_nat n <= Z.max 0 m)
    /\ (inside (4 + Z.of_nat (S n) * 1) (4 + Z.of_nat (S n) * (-1)) = false
        \/ exists m, Some 2 = Some m /\ Z.of_nat n = Z.max 0 m).
Proof.
  apply (generateMovesInDirection_line 8 4 4 1 (-1) (Some 2));
    [apply le_n | reflexivity | left; discriminate].
Defined.

Lemma loop_still_unlimited (fuel : nat) (a b : Z) :
  inside a b = true ->
  forall moves steps,
  BaseMovementStrategy.loop fuel 0 0 None moves steps (square a b) = None.
Proof.
  intros Hin. induction fuel as [| fuel IH]; intros moves steps.
  - reflexivity.
  - cbn [BaseMovementStrategy.loop]. rewrite offset_square.
    rewrite !Z.add_0_r, Hin. apply IH.
Qed.

Lemma loop_still_limited (fuel : nat) (a b m : Z) :
  inside a b = true ->
  forall moves steps,
  steps <= m -> m - steps < Z.of_nat fuel ->
  BaseMovementStrategy.loop fuel 0 0 (Some m) moves steps (square a b)
  = Some (Ok (moves ++ repeat (square a b) (Z.to_nat (m - steps)))).
Proof.
  intros Hin. induction fuel as [| fuel IH]; intros moves steps Hle Hf.
  - simpl in Hf. lia.
  - cbn [BaseMovementStrategy.loop].
    destruct (steps <? m) eqn:E.
    + apply Z.ltb_lt in E. rewrite offset_square.
      rewrite !Z.add_0_r, Hin. rewrite IH by lia.
      replace (Z.to_nat (m - steps)) with (S (Z.to_nat (m - (steps + 1))))
        by lia.
      cbn [repeat]. rewrite <- app_assoc. reflexivity.
    + apply Z.ltb_ge in E.
      replace (m - steps) with 0 by lia.
      cbn [Z.to_nat repeat]. rewrite app_nil_r. reflexivity.
Qed.

(** X2: with the direction (0,0) the loop of
    [generateMovesInDirection] does not advance: from a square of the
    board and without a limit it never ends, whatever the number of
    iterations allowed, and with a limit m it returns m copies of the
    origin. *)
Theorem generateMovesInDirection_no_direction (a b : Z) :
  inside a b = true ->
  (forall fuel,
     BaseMovementStrategy.generateMovesInDirection fuel (square a b)
       0 0 None = None)
  /\ (forall fuel m, 0 <= m < Z.of_nat fuel ->
     BaseMovementStrategy.generateMovesInDirection fuel (square a b)
       0 0 (Some m)
     = Some (Ok (repeat (square a b) (Z.to_nat m)))).
Proof.
  intros Hin. split.
  - intros fuel. apply loop_still_unlimited. exact Hin.
  - intros fuel m Hm.
    unfold BaseMovementStrategy.generateMovesInDirection.
    rewrite (loop_still_limited fuel a b m Hin [] 0) by lia.
    rewrite Z.sub_0_r. reflexivity.
Qed.

Lemma generateMovesInDirection_no_direction_witness :
  (forall fuel,
     BaseMovementStrategy.generateMovesInDirection fuel (square 3 5)
       0 0 None = None)
  /\ (forall fuel m, 0 <= m < Z.of_nat fuel ->
     BaseMovementStrategy.generateMovesInDirection fuel (square 3 5)
       0 0 (Some m)
     = Some (Ok (repeat (square 3 5) (Z.to_nat m)))).
Proof.
  apply (generateMovesInDirection_no_direction 3 5). reflexivity.
Defined.

(** ** The squares a rule reaches *)

Lemma movesAre_In (related : Position.t -> Position.t -> bool)
  (p : Position.t) (l : list Position.t) :
  movesAre related p l = true ->
  forall q, In q l <-> onBoard q = true /\ related p q = true.
Proof.
  unfold movesAre. rewrite andb_true_iff, !forallb_forall.
  intros [Hon Hrel] q. split.
  - intros Hq. split; [apply Hon; exact Hq |].
    specialize (Hrel q (onBoard_allSquares q (Hon q Hq))).
    apply eqb_prop in Hrel. rewrite <- Hrel.
    apply existsb_equals_In; exact Hq.
  - intros [Hb Hr].
    specialize (Hrel q (onBoard_allSquares q Hb)).
    apply eqb_prop in Hrel. rewrite Hr in Hrel.
    apply existsb_equals_In; exact Hrel.
Qed.

Lemma kingStep_spec (p q : Position.t) :
  kingStep p q = true <->
  q <> p /\ Z.abs (column q - column p) <= 1
  /\ Z.abs (Position.rank q - Position.rank p) <= 1.
Proof.
  unfold kingStep.
  rewrite !andb_true_iff, negb_true_iff, equals_false_iff, !Z.leb_le.
  tauto.
Qed.

Lemma queenLine_spec (p q : Position.t) :
  queenLine p q = true <->
  q <> p /\ (column q = column p
             \/ Position.rank q = Position.rank p
             \/ Z.abs (column q - column p)
                = Z.abs (Position.rank q - Position.rank p)).
Proof.
  unfold queenLine.
  rewrite andb_true_iff, !orb_true_iff, negb_true_iff, equals_false_iff,
    !Z.eqb_eq.
  tauto.
Qed.

(** X3: from a valid square the king rule returns exactly the squares
    of the board, other than the origin, that are at most one column
    and at most one rank away. *)
Theorem king_moves_are_neighbours (fuel : nat) (p : Position.t) :
  (2 <= fuel)%nat -> onBoard p = true ->
  exists l,
    calculateValidMoves KingMovementStrategy fuel p = Some (Ok l)
    /\ forall q, In q l <->
         onBoard q = true /\ q <> p
         /\ Z.abs (column q - column p) <= 1
         /\ Z.abs (Position.rank q - Position.rank p) <= 1.
Proof.
  intros Hfuel Hp.
  assert (Hk : isRule KingMovementStrategy) by (unfold isRule; auto).
  assert (H : returnsWith KingMovementStrategy 2 p (movesAre kingStep p)
              = true).
  { revert p Hp. apply board_check. vm_compute; reflexivity. }
  destruct (returnsWith_more_fuel _ 2 fuel p _ Hk Hfuel H) as (l & El & Hl).
  exists l. split; [exact El |].
  intros q. rewrite (movesAre_In kingStep p l Hl q), kingStep_spec.
  tauto.
Qed.

Lemma king_moves_are_neighbours_witness :
  exists l,
    calculateValidMoves KingMovementStrategy 2 (sq "A1") = Some (Ok l)
    /\ forall q, In q l <->
         onBoard q = true /\ q <> sq "A1"
         /\ Z.abs (column q - column (sq "A1")) <= 1
         /\ Z.abs (Position.rank q - Position.rank (sq "A1")) <= 1.
Proof.
  apply (king_moves_are_neighbours 2 (sq "A1")); [apply le_n | reflexivity].
Defined.

(** X4: from a valid square the queen rule returns exactly the squares
    of the board, other than the origin, that share its file, its rank
    or one of its diagonals. *)
Theorem queen_moves_are_lines (fuel : nat) (p : Position.t) :
  (8 <= fuel)%nat -> onBoard p = true ->
  exists l,
    calculateValidMoves QueenMovementStrategy fuel p = Some (Ok l)
    /\ NoDup l
    /\ forall q, In q l <->
         onBoard q = true /\ q <> p
         /\ (column q = column p
             \/ Position.rank q = Position.rank p
             \/ Z.abs (column q - column p)
                = Z.abs (Position.rank q - Position.rank p)).
Proof.
  intros Hfuel Hp.
  assert (Hk : isRule QueenMovementStrategy) by (unfold isRule; auto).
  assert (H : returnsWith QueenMovementStrategy 8 p
                (fun l => nodupb l && movesAre queenLine p l) = true).
  { revert p Hp. apply board_check. vm_compute; reflexivity. }
  destruct (returnsWith_more_fuel _ 8 fuel p _ Hk Hfuel H) as (l & El & Hl).
  apply andb_true_iff in Hl as [Hd Hl].
  exists l. split; [exact El |]. split; [apply nodupb_NoDup; exact Hd |].
  intros q. rewrite (movesAre_In queenLine p l Hl q), queenLine_spec.
  tauto.
Qed.

Lemma queen_moves_are_lines_witness :
  exists l,
    calculateValidMoves QueenMovementStrategy 8 (sq "E4") = Some (Ok l)
    /\ NoDup l
    /\ forall q, In q l <->
         onBoard q = true /\ q <> sq "E4"
         /\ (column q = column (sq "E4")
             \/ Position.rank q = Position.rank (sq "E4")
             \/ Z.abs (column q - column (sq "E4"))
                = Z.abs (Position.rank q - Position.rank (sq "E4"))).
Proof.
  apply (queen_moves_are_lines 8 (sq "E4")); [apply le_n | reflexivity].
Defined.

(** ** Squares from coordinates and from notation *)

Lemma onBoard_square_inside (a b : Z) :
  onBoard (square a b) = inside a b.
Proof.
  unfold onBoard, inside, square. cbn [Position._file Position._rank].
  apply eq_true_iff_eq. rewrite !andb_true_iff, !Z.leb_le. lia.
Qed.

(** X5: the zero-based coordinates and [fromCoordinates] are inverse
    of each other on the board: a valid square is returned by
    [fromCoordinates] from its own file index and rank, and for a
    column in 0..7 and a rank in 1..8 [fromCoordinates] returns a
    valid square with that file index and that rank. *)
Theorem fromCoordinates_fileIndex (p : Position.t) (i r : Z) :
  (onBoard p = true ->
   exists index, Position.fileIndex p = Some index
     /\ Position.fromCoordinates index (Int (Position.rank p)) = Ok p)
  /\ (0 <= i <= 7 -> 1 <= r <= 8 ->
      exists q, Position.fromCoordinates i (Int r) = Ok q
        /\ onBoard q = true
        /\ Position.fileIndex q = Some i /\ Position.rank q = r).
Proof.
  split.
  - intros Hp. apply onBoard_square in Hp as (a & b & -> & Ha & Hb).
    exists a. split; [apply fileIndex_square |].
    apply fromCoordinates_board; assumption.
  - intros Hi Hr. exists (square i r).
    split; [apply fromCoordinates_board; assumption |].
    split; [rewrite onBoard_square_inside; apply inside_bounds; auto |].
    split; [apply fileIndex_square | reflexivity].
Qed.

(** X6: which file indices [fromCoordinates] accepts.  For an index
    whose character 65 + index is in the ASCII range and a rank in
    1..8, it succeeds exactly for the indices 0..7 and 32..39 (the
    letters A-H and a-h) and otherwise fails with the file error for
    that character; and an index is read modulo 65536, as
    [String.fromCharCode] does, for the indices on which the code adds
    65 exactly (at most 2^53 - 65 in absolute value). *)
Theorem fromCoordinates_accepted (i r : Z) :
  -65 <= i < 63 -> 1 <= r <= 8 ->
  ((0 <= i <= 7 \/ 32 <= i <= 39) ->
     Position.fromCoordinates i (Int r)
     = Ok (square (upperUnit (65 + i) - 65) r))
  /\ (~ (0 <= i <= 7 \/ 32 <= i <= 39) ->
     Position.fromCoordinates i (Int r) = Throw (InvalidFile [65 + i]))
  /\ (forall k rank,
     Z.abs (i + 65536 * k) + 65 <= 2 ^ 53 ->
     Position.fromCoordinates (i + 65536 * k) rank
     = Position.fromCoordinates i rank).
Proof.
  intros Hi Hr.
  assert (Hc : fromCharCode (65 + i) = [65 + i]).
  { unfold fromCharCode. rewrite Z.mod_small by lia. reflexivity. }
  assert (Hlen : (List.length [(65 + i)%Z] <= 1)%nat) by apply le_n.
  pose proof (isValidFile_letter [65 + i] Hlen) as Hfile.
  assert (Hrank : Position.isValidRank (Int r) = true).
  { apply isValidRank_Int. exists r; auto. }
  split; [| split].
  - intros Hok. unfold Position.fromCoordinates. rewrite Hc.
    destruct (constructor_cases [65 + i] (Int r))
      as [[Hf _] | [[_ [Hk _]] | [_ (z & Hz & _ & E)]]].
    + assert (Hv : Position.isValidFile [65 + i] = true).
      { apply Hfile. exists (65 + i). split; [reflexivity | lia]. }
      congruence.
    + congruence.
    + rewrite E. inversion Hz; subst z. rewrite toUpperCase_unit.
      unfold square.
      replace (65 + (upperUnit (65 + i) - 65)) with (upperUnit (65 + i))
        by lia.
      reflexivity.
  - intros Hno. unfold Position.fromCoordinates. rewrite Hc.
    destruct (constructor_cases [65 + i] (Int r))
      as [[_ E] | [[Hf _] | [Hf _]]]; [exact E | |];
      apply Hfile in Hf; destruct Hf as (c & Hc' & Hl);
      assert (c = 65 + i) by congruence; lia.
  - intros k rank _. unfold Position.fromCoordinates, fromCharCode.
    replace (65 + (i + 65536 * k)) with (65 + i + k * 65536) by lia.
    rewrite Z_mod_plus_full. reflexivity.
Qed.

Lemma fromCoordinates_accepted_witness :
  ((0 <= 35 <= 7 \/ 32 <= 35 <= 39) ->
     Position.fromCoordinates 35 (Int 2)
     = Ok (square (upperUnit (65 + 35) - 65) 2))
  /\ (~ (0 <= 35 <= 7 \/ 32 <= 35 <= 39) ->
     Position.fromCoordinates 35 (Int 2) = Throw (InvalidFile [65 + 35]))
  /\ (forall k rank,
     Z.abs (35 + 65536 * k) + 65 <= 2 ^ 53 ->
     Position.fromCoordinates (35 + 65536 * k) rank
     = Position.fromCoordinates 35 rank).
Proof. apply (fromCoordinates_accepted 35 2); lia. Defined.

Lemma intToString_digit (r : Z) :
  1 <= r <= 8 -> intToString r = [48 + r].
Proof.
  intros H.
  assert (Hr : r = 1 \/ r = 2 \/ r = 3 \/ r = 4 \/ r = 5 \/ r = 6
               \/ r = 7 \/ r = 8) by lia.
  repeat destruct Hr as [-> | Hr]; try subst r; reflexivity.
Qed.

Lemma isFileLetter_dec (c : Z) : isFileLetter [c] \/ ~ isFileLetter [c].
Proof.
  unfold isFileLetter.
  assert (Hc : (65 <= c <= 72 \/ 97 <= c <= 104)
               \/ ~ (65 <= c <= 72 \/ 97 <= c <= 104)) by lia.
  destruct Hc as [Hc | Hc].
  - left; exists c; auto.
  - right; intros (x & Hx & Hr); inversion Hx; subst; auto.
Qed.

Lemma isFileLetter_upperUnit (c : Z) :
  isFileLetter [upperUnit c] <-> isFileLetter [c].
Proof.
  unfold isFileLetter. split.
  - intros (x & H & Hx). inversion H; subst x; clear H.
    exists c; split; [reflexivity |].
    assert (Hc : c < 97 \/ 122 < c \/ 97 <= c <= 122) by lia.
    destruct Hc as [Hc | [Hc | Hc]].
    + rewrite upperUnit_other in Hx by lia. lia.
    + rewrite upperUnit_other in Hx by lia. lia.
    + rewrite upperUnit_lower in Hx by lia. lia.
  - intros H. apply isFileLetter_upper in H.
    exists (upperUnit c); split; [reflexivity | lia].
Qed.

(** The texts that [fromNotation] accepts, and what it returns. *)
Lemma fromNotation_Ok (text : str) (p : Position.t) :
  Position.fromNotation text = Ok p <->
  exists c d, text = [c; d] /\ isFileLetter [c] /\ 49 <= d <= 56
              /\ p = square (upperUnit c - 65) (d - 48).
Proof.
  split.
  - intros H.
    destruct text as [| c [| d [| e rest]]];
      try (rewrite fromNotation_length in H by (simpl; lia); discriminate).
    rewrite fromNotation_two in H.
    set (rank := if isDigit d then Int (d - 48) else NaN) in H.
    destruct (constructor_cases [upperUnit c] rank)
      as [[_ E] | [[_ [_ E]] | [Hf (z & Hz & Hb & E)]]];
      rewrite E in H; try discriminate.
    injection H as <-.
    apply (isValidFile_letter [upperUnit c] (le_n 1)) in Hf.
    apply (proj1 (isFileLetter_upperUnit c)) in Hf.
    pose proof (isFileLetter_upper _ Hf) as Hu.
    subst rank. destruct (isDigit d); [| discriminate Hz].
    assert (Hzd : z = d - 48) by congruence. subst z.
    exists c, d.
    split; [reflexivity |]. split; [exact Hf |]. split; [lia |].
    unfold toUpperCase; cbn [map].
    rewrite (upperUnit_other (upperUnit c)) by lia.
    unfold square.
    replace (65 + (upperUnit c - 65)) with (upperUnit c) by lia.
    reflexivity.
  - intros (c & d & -> & Hl & Hd & ->).
    rewrite fromNotation_two.
    assert (Ed : isDigit d = true).
    { unfold isDigit. rewrite andb_true_iff, !Z.leb_le. lia. }
    rewrite Ed.
    pose proof (isFileLetter_upper _ Hl) as Hu.
    destruct (constructor_cases [upperUnit c] (Int (d - 48)))
      as [[Hf _] | [[_ [Hk _]] | [_ (z & Hz & _ & E)]]].
    + assert (Hv : Position.isValidFile [upperUnit c] = true).
      { apply (isValidFile_letter [upperUnit c] (le_n 1)).
        apply isFileLetter_upperUnit. exact Hl. }
      congruence.
    + assert (Hv : Position.isValidRank (Int (d - 48)) = true).
      { apply isValidRank_Int. exists (d - 48). split; [reflexivity | lia]. }
      congruence.
    + rewrite E. assert (Hzd : z = d - 48) by congruence. subst z.
      rewrite toUpperCase_unit.
      rewrite (upperUnit_other (upperUnit c)) by lia.
      unfold square.
      replace (65 + (upperUnit c - 65)) with (upperUnit c) by lia.
      reflexivity.
Qed.

Lemma fromNotation_onBoard (text : str) (p : Position.t) :
  Position.fromNotation text = Ok p -> onBoard p = true.
Proof.
  intros H. apply fromNotation_Ok in H as (c & d & _ & Hl & Hd & ->).
  apply isFileLetter_upper in Hl.
  rewrite onBoard_square_inside. apply inside_bounds. lia.
Qed.

(** X7: parsing then printing.  When [fromNotation] accepts a text,
    the square returned is a valid square whose notation is the text in
    upper case; the text in upper case and the text in lower case are
    accepted too, with the same square. *)
Theorem toNotation_fromNotation (text : str) (p : Position.t) :
  isAscii text = true ->
  Position.fromNotation text = Ok p ->
  onBoard p = true
  /\ Position.toNotation p = toUpperCase text
  /\ Position.fromNotation (toUpperCase text) = Ok p
  /\ Position.fromNotation (toLowerCase text) = Ok p.
Proof.
  intros _ H. split; [apply (fromNotation_onBoard text); exact H |].
  apply fromNotation_Ok in H as (c & d & -> & Hl & Hd & ->).
  pose proof (isFileLetter_upper _ Hl) as Hu.
  assert (Hdu : upperUnit d = d) by (apply upperUnit_other; lia).
  assert (Hdl : lowerUnit d = d).
  { unfold lowerUnit. destruct (65 <=? d) eqn:E; [| reflexivity].
    apply Z.leb_le in E. lia. }
  change (toUpperCase [c; d]) with [upperUnit c; upperUnit d].
  change (toLowerCase [c; d]) with [lowerUnit c; lowerUnit d].
  rewrite Hdu, Hdl. split; [| split].
  - unfold Position.toNotation, square.
    cbn [Position._file Position._rank].
    rewrite intToString_digit by lia.
    replace (65 + (upperUnit c - 65)) with (upperUnit c) by lia.
    replace (48 + (d - 48)) with d by lia. reflexivity.
  - apply fromNotation_Ok. exists (upperUnit c), d.
    split; [reflexivity |].
    split; [apply isFileLetter_upperUnit; exact Hl |].
    split; [exact Hd |].
    rewrite (upperUnit_other (upperUnit c)) by lia. reflexivity.
  - destruct Hl as (x & Hx & Hc). inversion Hx; subst x; clear Hx.
    assert (Hlow : 97 <= lowerUnit c <= 104
                   /\ upperUnit (lowerUnit c) = upperUnit c).
    { unfold lowerUnit. destruct Hc as [Hc | Hc].
      - destruct (65 <=? c) eqn:E1; [| apply Z.leb_gt in E1; lia].
        destruct (c <=? 90) eqn:E2; [| apply Z.leb_gt in E2; lia].
        cbn [andb]. split; [lia |].
        rewrite upperUnit_lower by lia.
        rewrite upperUnit_other by lia. lia.
      - destruct (65 <=? c) eqn:E1; [| apply Z.leb_gt in E1; lia].
        destruct (c <=? 90) eqn:E2; [apply Z.leb_le in E2; lia |].
        cbn [andb]. split; [lia | reflexivity]. }
    destruct Hlow as [Hrange Heq].
    apply fromNotation_Ok. exists (lowerUnit c), d.
    split; [reflexivity |].
    split; [exists (lowerUnit c); split; [reflexivity | right; exact Hrange] |].
    split; [exact Hd |].
    rewrite Heq. reflexivity.
Qed.

Lemma toNotation_fromNotation_witness :
  onBoard (sq "H8") = true
  /\ Position.toNotation (sq "H8") = toUpperCase (lit "h8")
  /\ Position.fromNotation (toUpperCase (lit "h8")) = Ok (sq "H8")
  /\ Position.fromNotation (toLowerCase (lit "h8")) = Ok (sq "H8").
Proof.
  apply (toNotation_fromNotation (lit "h8") (sq "H8")); reflexivity.
Defined.

(** ** The invariant of a square *)

Lemma upperUnit_idempotent (c : Z) : upperUnit (upperUnit c) = upperUnit c.
Proof.
  assert (Hc : c < 97 \/ 122 < c \/ 97 <= c <= 122) by lia.
  destruct Hc as [Hc | [Hc | Hc]].
  - rewrite !(upperUnit_other c) by lia. reflexivity.
  - rewrite !(upperUnit_other c) by lia. reflexivity.
  - rewrite (upperUnit_lower c) by lia. apply upperUnit_other; lia.
Qed.

Lemma toUpperCase_idempotent (s : str) :
  toUpperCase (toUpperCase s) = toUpperCase s.
Proof.
  unfold toUpperCase. rewrite map_map. apply map_ext.
  intros c. apply upperUnit_idempotent.
Qed.

Lemma isValid_square (a b : Z) :
  inside a b = true -> Position.isValid (square a b) = true.
Proof.
  intros H. apply inside_bounds in H as [Ha Hb].
  unfold Position.isValid, square. cbn [Position._file Position._rank].
  apply andb_true_iff. split.
  - apply (isValidFile_letter [65 + a] (le_n 1)).
    exists (65 + a). split; [reflexivity | lia].
  - apply isValidRank_Int. exists b. auto.
Qed.

(** What [offset] returns from a square with coordinates on the
    board. *)
Lemma offset_Some (p q : Position.t) (index fileOffset rankOffset : Z) :
  Position.fileIndex p = Some index -> 0 <= index <= 7 ->
  1 <= Position._rank p <= 8 ->
  Position.offset p fileOffset rankOffset = Ok (Some q) ->
  q = square (index + fileOffset) (Position._rank p + rankOffset)
  /\ inside (index + fileOffset) (Position._rank p + rankOffset) = true.
Proof.
  intros Hi Hb Hr H.
  destruct (inside (index + fileOffset) (Position._rank p + rankOffset))
    eqn:E.
  - apply inside_bounds in E as [H1 H2].
    rewrite (offset_inside p index _ _ Hi H1 H2) in H.
    rewrite fromCoordinates_board in H by assumption.
    cbn [bind] in H. split; [congruence | reflexivity].
  - apply inside_false in E.
    rewrite (offset_outside p index _ _ Hi E) in H. discriminate.
Qed.

(** X8: [isValid] is an invariant.  It holds of every square that the
    constructor returns, and every square that [offset] returns from
    such a square is a valid square of the board on which it holds
    too. *)
Theorem isValid_invariant (file : str) (rank : number) (p : Position.t) :
  isAscii file = true ->
  Position.constructor file rank = Ok p ->
  Position.isValid p = true
  /\ forall fileOffset rankOffset q,
       Position.offset p fileOffset rankOffset = Ok (Some q) ->
       onBoard q = true /\ Position.isValid q = true.
Proof.
  intros _ Hc. split.
  - destruct (constructor_cases file rank)
      as [[_ E] | [[_ [_ E]] | [Hf (z & Hz & Hb & E)]]];
      rewrite E in Hc; try discriminate.
    injection Hc as <-.
    unfold Position.isValid. cbn [Position._file Position._rank].
    apply andb_true_iff. split.
    + apply isValidFile_upper in Hf as (c & tl & Hu & Hr).
      apply isValidFile_upper. rewrite toUpperCase_idempotent.
      exists c, tl. auto.
    + apply isValidRank_Int. exists z. auto.
  - intros df dr q H.
    destruct (constructed_coordinates _ _ _ Hc) as (index & Hi & Hb & Hr & _).
    destruct (offset_Some p q index df dr Hi Hb Hr H) as [-> Hin].
    split; [rewrite onBoard_square_inside; exact Hin |].
    apply isValid_square; exact Hin.
Qed.

Lemma isValid_invariant_witness :
  Position.isValid (sq "B7") = true
  /\ forall fileOffset rankOffset q,
       Position.offset (sq "B7") fileOffset rankOffset = Ok (Some q) ->
       onBoard q = true /\ Position.isValid q = true.
Proof.
  apply (isValid_invariant (lit "b") (Int 7) (sq "B7")); reflexivity.
Defined.

(** ** The dispatcher and the piece types *)

(** X9: the dispatcher is consistent.  [hasStrategy] holds of a piece
    type exactly when [createStrategy] returns a strategy for it, which
    is exactly when the type is listed by [getSupportedPieceTypes]; the
    types listed are the values of the enumeration in their order, and
    the service answers the same. *)
Theorem dispatcher_consistent (pieceType : PieceType.t) :
  (MovementStrategyFactory.hasStrategy pieceType = true <->
   exists s, MovementStrategyFactory.createStrategy pieceType = Ok s)
  /\ (MovementStrategyFactory.hasStrategy pieceType = true <->
      In pieceType MovementStrategyFactory.getSupportedPieceTypes)
  /\ (MovementStrategyFactory.hasStrategy pieceType = false <->
      MovementStrategyFactory.createStrategy pieceType
      = Throw (NoMovementStrategy pieceType))
  /\ MovementStrategyFactory.getSupportedPieceTypes
     = PieceTypeUtils.getAllTypes
  /\ ChessMovementService.isPieceTypeSupported pieceType
     = MovementStrategyFactory.hasStrategy pieceType
  /\ ChessMovementService.getSupportedPieceTypes
     = [PieceType.PAWN; PieceType.KING; PieceType.QUEEN].
Proof.
  assert (Hlist : MovementStrategyFactory.getSupportedPieceTypes
                  = [PieceType.PAWN; PieceType.KING; PieceType.QUEEN])
    by reflexivity.
  assert (Hhas : MovementStrategyFactory.hasStrategy pieceType
                 = match MovementStrategyFactory.createStrategy pieceType with
                   | Ok _ => true
                   | Throw _ => false
                   end).
  { unfold MovementStrategyFactory.hasStrategy,
      MovementStrategyFactory.createStrategy.
    destruct (MovementStrategyFactory.get
                MovementStrategyFactory.strategyMap pieceType);
      reflexivity. }
  assert (Hin : In pieceType
                  [PieceType.PAWN; PieceType.KING; PieceType.QUEEN]
                <-> exists s,
                    MovementStrategyFactory.createStrategy pieceType = Ok s).
  { destruct (createStrategy_cases pieceType)
      as [[Hp E] | [[Hp E] | [[Hp E] | [Hp E]]]]; rewrite E.
    - split; [eauto | intros _; subst; simpl; auto].
    - split; [eauto | intros _; subst; simpl; auto].
    - split; [eauto | intros _; subst; simpl; auto].
    - split; [intros H; contradiction | intros (s & H); discriminate]. }
  split; [| split; [| split; [| split; [| split]]]];
    try reflexivity.
  - rewrite Hhas.
    destruct (MovementStrategyFactory.createStrategy pieceType) as [s | e].
    + split; eauto.
    + split; [discriminate | intros (s & H); discriminate].
  - rewrite Hlist, Hin, Hhas.
    destruct (MovementStrategyFactory.createStrategy pieceType) as [s | e].
    + split; eauto.
    + split; [discriminate | intros (s & H); discriminate].
  - rewrite Hhas.
    destruct (createStrategy_cases pieceType)
      as [[Hp E] | [[Hp E] | [[Hp E] | [Hp E]]]]; rewrite E;
      split; try discriminate; reflexivity.
Qed.

(** ** The sorter on any list *)



(** A list in order is left as it is. *)
Lemma sort_sorted_fixed (l : list Position.t) :
  Forall oneLetter l -> StronglySorted fileRankLe l ->
  PositionSorter.sort l = l.
Proof.
  unfold PositionSorter.sort.
  intros Hl Hs. induction Hs as [| x l Hs IH Hx]; [reflexivity |].
  inversion Hl as [| ? ? Hox Hol]; subst.
  cbn [fold_right]. rewrite IH by assumption.
  destruct l as [| z l']; [reflexivity |].
  cbn [PositionSorter.insert].
  inversion Hol as [| ? ? Hoz _]; subst.
  inversion Hx as [| ? ? Hxz _]; subst.
  destruct (compare_fileRankLe x z Hox Hoz) as [Hle _].
  apply Hle in Hxz. rewrite Hxz. reflexivity.
Qed.



(** The filter keeps a list without duplicates as it is. *)
Lemma filterFrom_NoDup_fixed (positions : list Position.t) :
  NoDup positions ->
  forall suf pre, positions = pre ++ suf ->
  PositionSorter.filterFrom
    (fun position index =>
       PositionSorter.findIndex (fun q => Position.equals q position)
         positions =? index)
    (Z.of_nat (List.length pre)) suf = suf.
Proof.
  intros Hn. induction suf as [| x suf IH]; intros pre Hp.
  - reflexivity.
  - cbn [PositionSorter.filterFrom].
    assert (Hp' : positions = (pre ++ [x]) ++ suf)
      by (rewrite <- app_assoc; exact Hp).
    specialize (IH (pre ++ [x]) Hp').
    replace (Z.of_nat (List.length (pre ++ [x])))
      with (Z.of_nat (List.length pre) + 1) in IH
      by (rewrite length_app; simpl; lia).
    pose proof (first_occurrence pre suf x) as Hx. rewrite <- Hp in Hx.
    assert (Hnx : ~ In x pre).
    { rewrite Hp in Hn. apply NoDup_remove_2 in Hn.
      intros Hin. apply Hn. apply in_or_app. left. exact Hin. }
    apply Hx in Hnx. rewrite Hnx, IH. reflexivity.
Qed.

Lemma fileRankLt_Le (a b : Position.t) : fileRankLt a b -> fileRankLe a b.
Proof.
  intros (c & d & Hc & Hd & H). exists c, d. repeat split; auto. lia.
Qed.

Lemma sortedLt_Le (l : list Position.t) :
  StronglySorted fileRankLt l -> StronglySorted fileRankLe l.
Proof.
  intros Hs. induction Hs as [| x l Hs IH Hx]; constructor.
  - exact IH.
  - rewrite Forall_forall in Hx |- *.
    intros y Hy. apply fileRankLt_Le, Hx, Hy.
Qed.

Lemma sortAndDeduplicate_fixed (l : list Position.t) :
  Forall oneLetter l -> NoDup l -> StronglySorted fileRankLt l ->
  PositionSorter.sortAndDeduplicate l = l.
Proof.
  intros Hl Hn Hs. unfold PositionSorter.sortAndDeduplicate.
  pose proof (filterFrom_NoDup_fixed l Hn l [] eq_refl) as Hfix.
  change (Z.of_nat (List.length (@nil Position.t))) with 0 in Hfix.
  rewrite Hfix.
  apply sort_sorted_fixed; [exact Hl | apply sortedLt_Le; exact Hs].
Qed.

(** X11: [sortAndDeduplicate] keeps exactly the squares of its input:
    a square is in the result if and only if it is in the input, the
    result is never longer than the input, and (on squares with a file
    of one character) applying it to its own result changes nothing. *)
Theorem sortAndDeduplicate_same_squares (positions : list Position.t) :
  Forall oneLetter positions ->
  (forall q, In q (PositionSorter.sortAndDeduplicate positions)
             <-> In q positions)
  /\ (List.length (PositionSorter.sortAndDeduplicate positions)
      <= List.length positions)%nat
  /\ PositionSorter.sortAndDeduplicate
       (PositionSorter.sortAndDeduplicate positions)
     = PositionSorter.sortAndDeduplicate positions.
Proof.
  intros Hl.
  destruct (sortAndDeduplicate_sorted positions Hl) as (Hn & Hs & Hin).
  cbn zeta in Hn, Hs, Hin.
  split; [exact Hin |]. split.
  - apply NoDup_incl_length; [exact Hn |].
    intros q Hq. apply Hin. exact Hq.
  - apply sortAndDeduplicate_fixed; [| exact Hn | exact Hs].
    rewrite Forall_forall in Hl |- *.
    intros y Hy. apply Hl. apply Hin. exact Hy.
Qed.

Lemma sortAndDeduplicate_same_squares_witness :
  (forall q, In q (PositionSorter.sortAndDeduplicate
                     [sq "B2"; sq "A3"; sq "B2"])
             <-> In q [sq "B2"; sq "A3"; sq "B2"])
  /\ (List.length (PositionSorter.sortAndDeduplicate
                     [sq "B2"; sq "A3"; sq "B2"])
      <= List.length [sq "B2"; sq "A3"; sq "B2"])%nat
  /\ PositionSorter.sortAndDeduplicate
       (PositionSorter.sortAndDeduplicate [sq "B2"; sq "A3"; sq "B2"])
     = PositionSorter.sortAndDeduplicate [sq "B2"; sq "A3"; sq "B2"].
Proof.
  apply (sortAndDeduplicate_same_squares [sq "B2"; sq "A3"; sq "B2"]).
  repeat constructor; eexists; reflexivity.
Defined.

(** ** The output string *)

Lemma constructor_unit_oneLetter (c : Z) (rank : number) (q : Position.t) :
  Position.constructor [c] rank = Ok q -> oneLetter q.
Proof.
  intros H.
  destruct (constructor_cases [c] rank)
    as [[_ E] | [[_ [_ E]] | [_ (z & _ & _ & E)]]];
    rewrite E in H; try discriminate.
  injection H as <-. exists (upperUnit c). reflexivity.
Qed.

Lemma offset_oneLetter (p q : Position.t) (fileOffset rankOffset : Z) :
  Position.offset p fileOffset rankOffset = Ok (Some q) -> oneLetter q.
Proof.
  unfold Position.offset, Position.fromCoordinates, fromCharCode.
  destruct (Position.fileIndex p) as [index |].
  - destruct ((index + fileOffset <? 0) || (index + fileOffset >? 7)
              || (Position._rank p + rankOffset <? 1)
              || (Position._rank p + rankOffset >? 8));
      [discriminate |].
    destruct (Position.constructor [(65 + (index + fileOffset)) mod 65536]
                (Int (Position._rank p + rankOffset))) as [r | e] eqn:E;
      cbn [bind]; [| discriminate].
    intros H. injection H as <-.
    apply (constructor_unit_oneLetter _ _ _ E).
  - destruct ((Position._rank p + rankOffset <? 1)
              || (Position._rank p + rankOffset >? 8));
      [discriminate |].
    destruct (Position.constructor [0 mod 65536]
                (Int (Position._rank p + rankOffset))) as [r | e] eqn:E;
      cbn [bind]; [| discriminate].
    intros H. injection H as <-.
    apply (constructor_unit_oneLetter _ _ _ E).
Qed.

Lemma loop_oneLetter (fuel : nat) :
  forall fileDirection rankDirection maxSteps moves steps currentPos l,
  Forall oneLetter moves ->
  BaseMovementStrategy.loop fuel fileDirection rankDirection maxSteps
    moves steps currentPos = Some (Ok l) ->
  Forall oneLetter l.
Proof.
  induction fuel as [| fuel IH]; intros fd rd ms moves steps pos l Hm H.
  - discriminate.
  - cbn [BaseMovementStrategy.loop] in H.
    destruct (match ms with Some m => steps <? m | None => true end);
      [| injection H as <-; exact Hm].
    destruct (Position.offset pos fd rd) as [[next |] | e] eqn:E;
      [| injection H as <-; exact Hm | discriminate].
    apply (IH _ _ _ _ _ _ _) with (2 := H).
    apply Forall_app. split; [exact Hm |].
    constructor; [| constructor].
    apply (offset_oneLetter _ _ _ _ E).
Qed.

Lemma forDirections_oneLetter (fuel : nat) (position : Position.t)
  (maxSteps : option Z) (ds : list (Z * Z)) :
  forall allMoves l,
  Forall oneLetter allMoves ->
  BaseMovementStrategy.forDirections fuel position maxSteps ds allMoves
    = Some (Ok l) ->
  Forall oneLetter l.
Proof.
  induction ds as [| [fd rd] ds IH]; intros allMoves l Ha H.
  - injection H as <-. exact Ha.
  - cbn [BaseMovementStrategy.forDirections] in H.
    unfold BaseMovementStrategy.generateMovesInDirection in H.
    destruct (BaseMovementStrategy.loop fuel fd rd maxSteps [] 0 position)
      as [[moves | e] |] eqn:E; cbn [runBind] in H; try discriminate.
    apply (IH _ _) with (2 := H).
    apply Forall_app. split; [exact Ha |].
    apply (loop_oneLetter _ _ _ _ _ _ _ _ (Forall_nil _) E).
Qed.

Lemma rule_oneLetter (s : MovementStrategy) (fuel : nat) (p : Position.t)
  (l : list Position.t) :
  isRule s -> calculateValidMoves s fuel p = Some (Ok l) ->
  Forall oneLetter l.
Proof.
  intros [-> | [-> | ->]] H; cbn [calculateValidMoves PawnMovementStrategy
    KingMovementStrategy QueenMovementStrategy] in H.
  - destruct (Position.offset p 0 1) as [[q |] | e] eqn:E;
      try discriminate; injection H as <-; [| constructor].
    constructor; [| constructor]. apply (offset_oneLetter _ _ _ _ E).
  - apply (forDirections_oneLetter _ _ _ _ _ _ (Forall_nil _) H).
  - apply (forDirections_oneLetter _ _ _ _ _ _ (Forall_nil _) H).
Qed.

(** What the orchestrator returns is the sorted list, without
    duplicates, of what a rule returned. *)
Lemma service_Ok (fuel : nat) (pieceType : PieceType.t) (p : Position.t)
  (l : list Position.t) :
  ChessMovementService.calculateValidMoves fuel pieceType p = Some (Ok l) ->
  exists s raw,
    MovementStrategyFactory.createStrategy pieceType = Ok s
    /\ calculateValidMoves s fuel p = Some (Ok raw)
    /\ Forall oneLetter raw
    /\ l = PositionSorter.sortAndDeduplicate raw.
Proof.
  unfold ChessMovementService.calculateValidMoves,
    ChessMovementService.tryBlock. cbn [runBind].
  destruct (MovementStrategyFactory.createStrategy pieceType)
    as [s | e] eqn:Es; [| discriminate].
  destruct (calculateValidMoves s fuel p) as [[raw | e] |] eqn:Er;
    try discriminate.
  intros H. injection H as <-.
  exists s, raw. repeat split; try assumption.
  apply (rule_oneLetter s fuel p raw); [| exact Er].
  apply (createStrategy_rule pieceType); exact Es.
Qed.

Lemma asString_Ok (fuel : nat) (pieceType : PieceType.t) (p : Position.t)
  (l : list Position.t) :
  ChessMovementService.calculateValidMoves fuel pieceType p = Some (Ok l) ->
  PositionSorter.toOutputString l
  = join (lit ", ") (map Position.toNotation l)
  /\ ChessMovementService.calculateValidMovesAsString fuel pieceType p
     = Some (Ok (join (lit ", ") (map Position.toNotation l))).
Proof.
  intros H.
  assert (Hout : PositionSorter.toOutputString l
                 = join (lit ", ") (map Position.toNotation l)).
  { destruct (service_Ok fuel pieceType p l H)
      as (s & raw & _ & _ & Hraw & ->).
    destruct (sortAndDeduplicate_sorted raw Hraw) as (Hn & Hs & Hin).
    cbn zeta in Hn, Hs, Hin.
    unfold PositionSorter.toOutputString.
    rewrite sort_sorted_fixed; [reflexivity | |].
    - rewrite Forall_forall in Hraw |- *.
      intros y Hy. apply Hraw, Hin, Hy.
    - apply sortedLt_Le; exact Hs. }
  split; [exact Hout |].
  unfold ChessMovementService.calculateValidMovesAsString.
  rewrite H. cbn [runBind]. rewrite Hout. reflexivity.
Qed.

(** X12: the string of [calculateValidMovesAsString] lists the squares
    that [calculateValidMoves] returns, in the same order, each in
    notation and separated by a comma and a space: the second sort made
    by [toOutputString] changes nothing.  A failure of
    [calculateValidMoves] is passed on as it is. *)
Theorem calculateValidMovesAsString_lists_moves (fuel : nat)
  (pieceType : PieceType.t) (p : Position.t) :
  (forall l,
     ChessMovementService.calculateValidMoves fuel pieceType p
     = Some (Ok l) ->
     PositionSorter.toOutputString l
     = join (lit ", ") (map Position.toNotation l)
     /\ ChessMovementService.calculateValidMovesAsString fuel pieceType p
        = Some (Ok (join (lit ", ") (map Position.toNotation l))))
  /\ (forall e,
     ChessMovementService.calculateValidMoves fuel pieceType p
     = Some (Throw e) ->
     ChessMovementService.calculateValidMovesAsString fuel pieceType p
     = Some (Throw e)).
Proof.
  split.
  - intros l. apply asString_Ok.
  - intros e H.
    unfold ChessMovementService.calculateValidMovesAsString.
    rewrite H. reflexivity.
Qed.

(** ** Piece types from text *)

Lemma upper_lower_unit (c T : Z) :
  65 <= T <= 90 -> (upperUnit c = T <-> lowerUnit c = T + 32).
Proof.
  intros HT. unfold upperUnit, lowerUnit.
  destruct (97 <=? c) eqn:E1; destruct (c <=? 122) eqn:E2;
    destruct (65 <=? c) eqn:E3; destruct (c <=? 90) eqn:E4;
    cbn [andb];
    try apply Z.leb_le in E1; try apply Z.leb_gt in E1;
    try apply Z.leb_le in E2; try apply Z.leb_gt in E2;
    try apply Z.leb_le in E3; try apply Z.leb_gt in E3;
    try apply Z.leb_le in E4; try apply Z.leb_gt in E4; lia.
Qed.

(** The normalization of [fromString] against a capitalized name. *)
Lemma normalized_eq (n rest : str) (T : Z) :
  65 <= T <= 90 ->
  toUpperCase (charAt n 0) ++ toLowerCase (slice1 n) = T :: rest
  <-> toLowerCase n = (T + 32) :: rest.
Proof.
  intros HT. destruct n as [| c tl].
  - split; discriminate.
  - change (toUpperCase (charAt (c :: tl) 0) ++ toLowerCase (slice1 (c :: tl)))
      with (upperUnit c :: toLowerCase tl).
    change (toLowerCase (c :: tl)) with (lowerUnit c :: toLowerCase tl).
    pose proof (upper_lower_unit c T HT) as Hc.
    split; intros H; injection H as H1 H2; f_equal; try assumption;
      apply Hc; assumption.
Qed.

Lemma fromString_Parsed (pieceStr : str) (t : PieceType.t) :
  PieceTypeUtils.fromString pieceStr = Parsed t <->
  In t PieceTypeUtils.values
  /\ toLowerCase (trim pieceStr) = toLowerCase t.
Proof.
  unfold PieceTypeUtils.fromString, PieceTypeUtils.values.
  set (n := trim pieceStr).
  set (u := toUpperCase (charAt n 0) ++ toLowerCase (slice1 n)).
  assert (HP : u = PieceType.PAWN <-> toLowerCase n = toLowerCase PieceType.PAWN).
  { apply (normalized_eq n (lit "awn") 80). lia. }
  assert (HK : u = PieceType.KING <-> toLowerCase n = toLowerCase PieceType.KING).
  { apply (normalized_eq n (lit "ing") 75). lia. }
  assert (HQ : u = PieceType.QUEEN <-> toLowerCase n = toLowerCase PieceType.QUEEN).
  { apply (normalized_eq n (lit "ueen") 81). lia. }
  cbn [find].
  destruct (Position.eqStr PieceType.PAWN u) eqn:E1.
  { apply eqStr_true_iff in E1. symmetry in E1.
    pose proof (proj1 HP E1) as Hn. split.
    - intros H. injection H as <-. split; [simpl; auto | exact Hn].
    - intros [[<- | [<- | [<- | []]]] Hl]; [reflexivity | |];
        exfalso; rewrite Hn in Hl; vm_compute in Hl; discriminate Hl. }
  destruct (Position.eqStr PieceType.KING u) eqn:E2.
  { apply eqStr_true_iff in E2. symmetry in E2.
    pose proof (proj1 HK E2) as Hn. split.
    - intros H. injection H as <-. split; [simpl; auto | exact Hn].
    - intros [[<- | [<- | [<- | []]]] Hl]; [| reflexivity |];
        exfalso; rewrite Hn in Hl; vm_compute in Hl; discriminate Hl. }
  destruct (Position.eqStr PieceType.QUEEN u) eqn:E3.
  { apply eqStr_true_iff in E3. symmetry in E3.
    pose proof (proj1 HQ E3) as Hn. split.
    - intros H. injection H as <-. split; [simpl; auto | exact Hn].
    - intros [[<- | [<- | [<- | []]]] Hl]; [| | reflexivity];
        exfalso; rewrite Hn in Hl; vm_compute in Hl; discriminate Hl. }
  split; [discriminate |].
  intros [[<- | [<- | [<- | []]]] Hl]; exfalso.
  - apply HP in Hl. symmetry in Hl. apply eqStr_true_iff in Hl. congruence.
  - apply HK in Hl. symmetry in Hl. apply eqStr_true_iff in Hl. congruence.
  - apply HQ in Hl. symmetry in Hl. apply eqStr_true_iff in Hl. congruence.
Qed.

(** X13: [PieceTypeUtils.fromString] ignores case and surrounding white
    space: it returns a piece type exactly when the text, trimmed and
    in lower case, is the name of that type in lower case; any other
    text fails with the error that quotes the text as it was given, and
    [isValid] tells the two cases apart. *)
Theorem fromString_case_insensitive (pieceStr : str) :
  isAscii pieceStr = true ->
  (forall t, PieceTypeUtils.fromString pieceStr = Parsed t <->
     In t [PieceType.PAWN; PieceType.KING; PieceType.QUEEN]
     /\ toLowerCase (trim pieceStr) = toLowerCase t)
  /\ (forall e, PieceTypeUtils.fromString pieceStr = Failed e ->
        e = UnsupportedPieceType pieceStr)
  /\ (PieceTypeUtils.isValid pieceStr = true <->
      exists t, PieceTypeUtils.fromString pieceStr = Parsed t).
Proof.
  intros _. split; [| split].
  - intros t. apply fromString_Parsed.
  - intros e. unfold PieceTypeUtils.fromString. cbv zeta.
    match goal with
    | |- context [find ?f ?l] => destruct (find f l)
    end; [discriminate |].
    intros H. injection H as <-. reflexivity.
  - unfold PieceTypeUtils.isValid.
    destruct (PieceTypeUtils.fromString pieceStr) as [t | e].
    + split; eauto.
    + split; [discriminate | intros (t & H); discriminate].
Qed.

Lemma fromString_case_insensitive_witness :
  (forall t, PieceTypeUtils.fromString (lit " qUEEN ") = Parsed t <->
     In t [PieceType.PAWN; PieceType.KING; PieceType.QUEEN]
     /\ toLowerCase (trim (lit " qUEEN ")) = toLowerCase t)
  /\ (forall e, PieceTypeUtils.fromString (lit " qUEEN ") = Failed e ->
        e = UnsupportedPieceType (lit " qUEEN "))
  /\ (PieceTypeUtils.isValid (lit " qUEEN ") = true <->
      exists t, PieceTypeUtils.fromString (lit " qUEEN ") = Parsed t).
Proof.
  apply (fromString_case_insensitive (lit " qUEEN ")). reflexivity.
Defined.

Lemma values_have_strategy (t : PieceType.t) :
  In t PieceTypeUtils.values ->
  MovementStrategyFactory.hasStrategy t = true
  /\ exists s, isRule s /\ MovementStrategyFactory.createStrategy t = Ok s.
Proof.
  unfold isRule.
  intros [<- | [<- | [<- | []]]]; (split; [reflexivity |]);
    [ exists PawnMovementStrategy | exists KingMovementStrategy
    | exists QueenMovementStrategy ]; auto.
Qed.

(** X14: every piece type that [fromString] returns is one the
    dispatcher has a strategy for, so that [createStrategy] does not
    fail on it. *)
Theorem fromString_has_strategy (pieceStr : str) (t : PieceType.t) :
  PieceTypeUtils.fromString pieceStr = Parsed t ->
  MovementStrategyFactory.hasStrategy t = true
  /\ ChessMovementService.isPieceTypeSupported t = true
  /\ exists s, MovementStrategyFactory.createStrategy t = Ok s.
Proof.
  intros H. apply fromString_Parsed in H as [Hin _].
  destruct (values_have_strategy t Hin) as (Hh & s & _ & Hs).
  split; [exact Hh |]. split; [exact Hh |]. exists s. exact Hs.
Qed.

Lemma fromString_has_strategy_witness :
  MovementStrategyFactory.hasStrategy PieceType.KING = true
  /\ ChessMovementService.isPieceTypeSupported PieceType.KING = true
  /\ exists s, MovementStrategyFactory.createStrategy PieceType.KING = Ok s.
Proof.
  apply (fromString_has_strategy (lit "king") PieceType.KING). reflexivity.
Defined.

(** ** Parsing of the arguments *)

Lemma isWhiteSpace_printable (c : Z) :
  33 <= c <= 126 -> isWhiteSpace c = false.
Proof.
  intros H. unfold isWhiteSpace. cbn [existsb].
  repeat match goal with
         | |- context [c =? ?k] => destruct (Z.eqb_spec c k); [lia |]
         end.
  destruct (8192 <=? c) eqn:E; [apply Z.leb_le in E; lia | reflexivity].
Qed.

Lemma trim_nil : trim [] = [].
Proof. reflexivity. Qed.

Lemma trim_two (c d : Z) :
  isWhiteSpace c = false -> isWhiteSpace d = false -> trim [c; d] = [c; d].
Proof.
  intros Hc Hd. unfold trim. cbn [skipWhiteSpace]. rewrite Hc.
  cbn [rev app skipWhiteSpace]. rewrite Hd. reflexivity.
Qed.

Lemma fromString_not_blank (pieceStr : str) (t : PieceType.t) :
  PieceTypeUtils.fromString pieceStr = Parsed t ->
  InputParser.isBlank pieceStr = false.
Proof.
  intros H. apply fromString_Parsed in H as [Hin Hl].
  unfold InputParser.isBlank.
  destruct pieceStr as [| c s].
  - rewrite trim_nil in Hl.
    destruct Hin as [<- | [<- | [<- | []]]]; discriminate Hl.
  - destruct (trim (c :: s)) as [| x n]; [| reflexivity].
    destruct Hin as [<- | [<- | [<- | []]]]; discriminate Hl.
Qed.

Lemma fromNotation_not_blank (text : str) (p : Position.t) :
  Position.fromNotation text = Ok p -> InputParser.isBlank text = false.
Proof.
  intros H. apply fromNotation_Ok in H as (c & d & -> & Hl & Hd & _).
  unfold InputParser.isBlank.
  destruct Hl as (x & Hx & Hc). assert (x = c) by congruence. subst x.
  rewrite trim_two; [reflexivity | |];
    apply isWhiteSpace_printable; lia.
Qed.

Lemma parseArgs_Parsed (args : list str) (input : InputParser.ParsedInput) :
  InputParser.parseArgs args = Parsed input <->
  exists pieceTypeStr positionStr,
    args = [pieceTypeStr; positionStr]
    /\ PieceTypeUtils.fromString pieceTypeStr
       = Parsed (InputParser.pieceType input)
    /\ Position.fromNotation positionStr
       = Ok (InputParser.position input).
Proof.
  split.
  - unfold InputParser.parseArgs.
    destruct (InputParser.validateArgsLength args); [discriminate |].
    destruct args as [| a [| b [| c rest]]]; try discriminate.
    unfold InputParser.parsePair.
    destruct (PieceTypeUtils.fromString a) as [t | e] eqn:Ea;
      [| discriminate].
    destruct (Position.fromNotation b) as [p | e] eqn:Eb; [| discriminate].
    intros H. injection H as <-. exists a, b.
    split; [reflexivity |]. split; assumption.
  - intros (a & b & -> & Ha & Hb).
    unfold InputParser.parseArgs, InputParser.validateArgsLength.
    cbn [List.length Nat.eqb negb existsb].
    rewrite (fromString_not_blank a _ Ha), (fromNotation_not_blank b _ Hb).
    cbn [orb]. unfold InputParser.parsePair. rewrite Ha, Hb.
    destruct input; reflexivity.
Qed.

(** X15: [parseArgs] returns a piece type and a square exactly when it
    is given two arguments, the first accepted by [fromString] and the
    second by [fromNotation]; what it returns is what they return. *)
Theorem parseArgs_accepts (args : list str) (input : InputParser.ParsedInput) :
  forallb isAscii args = true ->
  (InputParser.parseArgs args = Parsed input <->
   exists pieceTypeStr positionStr,
     args = [pieceTypeStr; positionStr]
     /\ PieceTypeUtils.fromString pieceTypeStr
        = Parsed (InputParser.pieceType input)
     /\ Position.fromNotation positionStr
        = Ok (InputParser.position input)).
Proof.
  intros _. apply parseArgs_Parsed.
Qed.

Lemma parseArgs_accepts_witness :
  InputParser.parseArgs [lit "king"; lit "d5"]
  = Parsed {| InputParser.pieceType := PieceType.KING;
              InputParser.position := sq "D5" |}
  <-> exists pieceTypeStr positionStr,
        [lit "king"; lit "d5"] = [pieceTypeStr; positionStr]
        /\ PieceTypeUtils.fromString pieceTypeStr
           = Parsed (InputParser.pieceType
                       {| InputParser.pieceType := PieceType.KING;
                          InputParser.position := sq "D5" |})
        /\ Position.fromNotation positionStr
           = Ok (InputParser.position
                   {| InputParser.pieceType := PieceType.KING;
                      InputParser.position := sq "D5" |}).
Proof.
  apply (parseArgs_accepts [lit "king"; lit "d5"]
           {| InputParser.pieceType := PieceType.KING;
              InputParser.position := sq "D5" |}).
  reflexivity.
Defined.

(** X16: the failures of [parseArgs].  No argument, a number of
    arguments other than two, and a blank argument are reported as
    such; with two arguments that are not blank, a piece type that
    [fromString] refuses is reported first, whatever the position, and
    then a position that [fromNotation] refuses, both inside the error
    that [parseArgs] raises for invalid input. *)
Theorem parseArgs_failures (args : list str) :
  (args = [] -> InputParser.parseArgs args = Failed NoArguments)
  /\ (args <> [] -> List.length args <> 2%nat ->
      InputParser.parseArgs args
      = Failed (InvalidNumberOfArguments (List.length args)))
  /\ (forall a b, args = [a; b] ->
      (InputParser.isBlank a = true \/ InputParser.isBlank b = true ->
       InputParser.parseArgs args = Failed EmptyArguments)
      /\ (InputParser.isBlank a = false -> InputParser.isBlank b = false ->
          (forall e, PieceTypeUtils.fromString a = Failed e ->
             InputParser.parseArgs args
             = Failed (InvalidInput (UnsupportedPieceType a)))
          /\ (forall t e, PieceTypeUtils.fromString a = Parsed t ->
             Position.fromNotation b = Throw e ->
             InputParser.parseArgs args
             = Failed (InvalidInput (PositionError e))))).
Proof.
  split; [| split].
  - intros ->. reflexivity.
  - intros Hne Hlen.
    unfold InputParser.parseArgs, InputParser.validateArgsLength.
    destruct args as [| a rest]; [contradiction |].
    cbn [List.length Nat.eqb].
    destruct (Nat.eqb (List.length rest) 1) eqn:E.
    + apply Nat.eqb_eq in E. simpl in Hlen. lia.
    + destruct rest as [| b [| c rest']]; reflexivity.
  - intros a b ->. split.
    + intros Hb.
      unfold InputParser.parseArgs, InputParser.validateArgsLength.
      cbn [List.length Nat.eqb negb existsb].
      destruct Hb as [Hb | Hb]; rewrite Hb;
        [| rewrite orb_true_r]; reflexivity.
    + intros Ha Hb.
      unfold InputParser.parseArgs, InputParser.validateArgsLength.
      cbn [List.length Nat.eqb negb existsb].
      rewrite Ha, Hb. cbn [orb]. unfold InputParser.parsePair. split.
      * intros e He. rewrite He.
        unfold PieceTypeUtils.fromString in He. cbv zeta in He.
        match type of He with
        | context [find ?f ?l] => destruct (find f l)
        end; [discriminate |].
        injection He as <-. reflexivity.
      * intros t e Ht He. rewrite Ht, He. reflexivity.
Qed.

(** ** Parsing of one string *)

Lemma split_not_nil (sep : Z) (s : str) : split sep s <> [].
Proof.
  destruct s as [| c s]; cbn [split]; [discriminate |].
  destruct (c =? sep); [discriminate |].
  destruct (split sep s); discriminate.
Qed.

Lemma split_length (sep : Z) (s : str) :
  List.length (split sep s) = S (count_occ Z.eq_dec s sep).
Proof.
  induction s as [| c s IH]; [reflexivity |].
  cbn [split count_occ].
  destruct (Z.eq_dec c sep) as [-> | Hne].
  - rewrite Z.eqb_refl. cbn [List.length]. rewrite IH. reflexivity.
  - apply Z.eqb_neq in Hne. rewrite Hne.
    destruct (split sep s) as [| part parts] eqn:E;
      [exfalso; apply (split_not_nil sep s E) |].
    cbn [List.length] in IH |- *. exact IH.
Qed.

Lemma split_no_separator (sep : Z) (a : str) :
  ~ In sep a -> split sep a = [a].
Proof.
  induction a as [| c a IH]; intros H; [reflexivity |].
  cbn [split].
  destruct (Z.eqb_spec c sep) as [-> | Hne].
  - exfalso. apply H. left. reflexivity.
  - rewrite IH by (intros Hin; apply H; right; exact Hin). reflexivity.
Qed.

Lemma split_at_separator (sep : Z) (a b : str) :
  ~ In sep a -> split sep (a ++ sep :: b) = a :: split sep b.
Proof.
  induction a as [| c a IH]; intros H.
  - cbn [app split]. rewrite Z.eqb_refl. reflexivity.
  - change ((c :: a) ++ sep :: b) with (c :: (a ++ sep :: b)).
    cbn [split].
    destruct (Z.eqb_spec c sep) as [-> | Hne].
    + exfalso. apply H. left. reflexivity.
    + rewrite IH by (intros Hin; apply H; right; exact Hin). reflexivity.
Qed.

(** X17: [parseString] splits at the commas: an empty input and an
    input with no comma or with more than one are refused before any
    parsing, and an input with exactly one comma is parsed as
    [parseArgs] parses the two sides with the white space around each
    removed. *)
Theorem parseString_one_comma (input : str) :
  (input = [] -> InputParser.parseString input = Failed NotANonEmptyString)
  /\ (input <> [] -> count_occ Z.eq_dec input 44 <> 1%nat ->
      InputParser.parseString input = Failed (InvalidInputFormat input))
  /\ (forall a b, input = a ++ 44 :: b -> ~ In 44 a -> ~ In 44 b ->
      InputParser.parseString input
      = InputParser.parseArgs [trim a; trim b]).
Proof.
  split; [| split].
  - intros ->. reflexivity.
  - intros Hne Hc. unfold InputParser.parseString.
    destruct input as [| c s]; [contradiction |].
    rewrite length_map, split_length.
    destruct (Nat.eqb (S (count_occ Z.eq_dec (c :: s) 44)) 2) eqn:E;
      [| reflexivity].
    apply Nat.eqb_eq in E. lia.
  - intros a b -> Ha Hb. unfold InputParser.parseString.
    destruct (a ++ 44 :: b) as [| c s] eqn:E.
    { destruct a; discriminate E. }
    rewrite <- E.
    rewrite (split_at_separator 44 a b Ha), (split_no_separator 44 b Hb).
    reflexivity.
Qed.

(** ** From the arguments to the moves *)

Lemma service_on_board (fuel : nat) (pieceType : PieceType.t)
  (p : Position.t) :
  (8 <= fuel)%nat -> In pieceType PieceTypeUtils.values ->
  onBoard p = true ->
  exists l,
    ChessMovementService.calculateValidMoves fuel pieceType p = Some (Ok l)
    /\ NoDup l
    /\ Forall (fun q => q <> p /\ onBoard q = true) l.
Proof.
  intros Hfuel Hin Hp.
  destruct (values_have_strategy pieceType Hin) as (_ & s & Hs & Es).
  destruct (rule_moves_on_board s fuel p Hs Hfuel Hp) as (raw & Eraw & Hraw).
  assert (Hone : Forall oneLetter raw).
  { rewrite Forall_forall in Hraw |- *.
    intros q Hq. apply onBoard_oneLetter, (Hraw q Hq). }
  destruct (sortAndDeduplicate_sorted raw Hone) as (Hn & _ & Hmem).
  exists (PositionSorter.sortAndDeduplicate raw).
  split; [| split].
  - unfold ChessMovementService.calculateValidMoves,
      ChessMovementService.tryBlock.
    rewrite Es. cbn [runBind]. rewrite Eraw. reflexivity.
  - exact Hn.
  - rewrite Forall_forall in Hraw |- *.
    intros q Hq. apply Hraw, Hmem, Hq.
Qed.

(** X18: what [parseArgs] accepts is always served.  For arguments
    that [parseArgs] accepts, the piece type is supported, the square
    is a valid square, and [calculateValidMoves] returns, without
    error, squares of the board other than the origin, each once,
    which [calculateValidMovesAsString] prints in that order. *)
Theorem parsed_input_is_served (fuel : nat) (args : list str)
  (input : InputParser.ParsedInput) :
  forallb isAscii args = true -> (8 <= fuel)%nat ->
  InputParser.parseArgs args = Parsed input ->
  ChessMovementService.isPieceTypeSupported (InputParser.pieceType input)
  = true
  /\ onBoard (InputParser.position input) = true
  /\ exists l,
       ChessMovementService.calculateValidMoves fuel
         (InputParser.pieceType input) (InputParser.position input)
       = Some (Ok l)
       /\ NoDup l
       /\ Forall (fun q => q <> InputParser.position input
                           /\ onBoard q = true) l
       /\ ChessMovementService.calculateValidMovesAsString fuel
            (InputParser.pieceType input) (InputParser.position input)
          = Some (Ok (join (lit ", ") (map Position.toNotation l))).
Proof.
  intros _ Hfuel H.
  apply parseArgs_Parsed in H as (a & b & _ & Ha & Hb).
  apply fromString_Parsed in Ha as [Hin _].
  apply fromNotation_onBoard in Hb.
  destruct (values_have_strategy _ Hin) as (Hh & _).
  split; [exact Hh |]. split; [exact Hb |].
  destruct (service_on_board fuel _ _ Hfuel Hin Hb) as (l & El & Hn & Hl).
  exists l. split; [exact El |]. split; [exact Hn |].
  split; [exact Hl |].
  apply (asString_Ok fuel _ _ l El).
Qed.

Lemma parsed_input_is_served_witness :
  ChessMovementService.isPieceTypeSupported PieceType.QUEEN = true
  /\ onBoard (sq "E4") = true
  /\ exists l,
       ChessMovementService.calculateValidMoves 8 PieceType.QUEEN (sq "E4")
       = Some (Ok l)
       /\ NoDup l
       /\ Forall (fun q => q <> sq "E4" /\ onBoard q = true) l
       /\ ChessMovementService.calculateValidMovesAsString 8
            PieceType.QUEEN (sq "E4")
          = Some (Ok (join (lit ", ") (map Position.toNotation l))).
Proof.
  apply (parsed_input_is_served 8 [lit "Queen"; lit "E4"]
           {| InputParser.pieceType := PieceType.QUEEN;
              InputParser.position := sq "E4" |});
    [reflexivity | apply le_n | reflexivity].
Defined.

(** ** The rules compared *)

Lemma subsetb_incl (l l' : list Position.t) :
  subsetb l l' = true -> incl l l'.
Proof.
  unfold subsetb. rewrite forallb_forall.
  intros H q Hq. apply existsb_equals_In. apply H. exact Hq.
Qed.

(** X19: on a valid square the rules are nested: the square that the
    pawn rule returns is among those of the king rule, and the squares
    of the king rule are among those of the queen rule. *)
Theorem pawn_king_queen_nested (fuel : nat) (p : Position.t) :
  (8 <= fuel)%nat -> onBoard p = true ->
  exists pawn king queen,
    calculateValidMoves PawnMovementStrategy fuel p = Some (Ok pawn)
    /\ calculateValidMoves KingMovementStrategy fuel p = Some (Ok king)
    /\ calculateValidMoves QueenMovementStrategy fuel p = Some (Ok queen)
    /\ incl pawn king /\ incl king queen.
Proof.
  intros Hfuel Hp.
  assert (H : returnsWith PawnMovementStrategy 8 p (fun pawn =>
              returnsWith KingMovementStrategy 8 p (fun king =>
              returnsWith QueenMovementStrategy 8 p (fun queen =>
              subsetb pawn king && subsetb king queen))) = true).
  { revert p Hp. apply board_check. vm_compute; reflexivity. }
  destruct (returnsWith_more_fuel PawnMovementStrategy 8 fuel p _
              (or_introl eq_refl) Hfuel H) as (pawn & E1 & H1).
  destruct (returnsWith_more_fuel KingMovementStrategy 8 fuel p _
              (or_intror (or_introl eq_refl)) Hfuel H1) as (king & E2 & H2).
  destruct (returnsWith_more_fuel QueenMovementStrategy 8 fuel p _
              (or_intror (or_intror eq_refl)) Hfuel H2) as (queen & E3 & H3).
  apply andb_true_iff in H3 as [Ha Hb].
  exists pawn, king, queen.
  repeat split; try assumption; apply subsetb_incl; assumption.
Qed.

Lemma pawn_king_queen_nested_witness :
  exists pawn king queen,
    calculateValidMoves PawnMovementStrategy 8 (sq "G1") = Some (Ok pawn)
    /\ calculateValidMoves KingMovementStrategy 8 (sq "G1") = Some (Ok king)
    /\ calculateValidMoves QueenMovementStrategy 8 (sq "G1")
       = Some (Ok queen)
    /\ incl pawn king /\ incl king queen.
Proof.
  apply (pawn_king_queen_nested 8 (sq "G1")); [apply le_n | reflexivity].
Defined.

(** X20: the number of squares the queen rule returns from a valid
    square is 21 plus twice the distance from the square to the
    nearest edge of the board: from 21 on the border to 27 on the four
    center squares. *)
Theorem queen_moves_count (fuel : nat) (p : Position.t) :
  (8 <= fuel)%nat -> onBoard p = true ->
  exists l,
    calculateValidMoves QueenMovementStrategy fuel p = Some (Ok l)
    /\ Z.of_nat (List.length l) = 21 + 2 * edgeDistance p
    /\ 0 <= edgeDistance p <= 3.
Proof.
  intros Hfuel Hp.
  assert (H : returnsWith QueenMovementStrategy 8 p (fun l =>
              (Z.of_nat (List.length l) =? 21 + 2 * edgeDistance p)
              && (0 <=? edgeDistance p) && (edgeDistance p <=? 3)) = true).
  { revert p Hp. apply board_check. vm_compute; reflexivity. }
  destruct (returnsWith_more_fuel QueenMovementStrategy 8 fuel p _
              (or_intror (or_intror eq_refl)) Hfuel H) as (l & El & Hl).
  rewrite !andb_true_iff, Z.eqb_eq, !Z.leb_le in Hl.
  exists l. split; [exact El |]. split; [tauto | lia].
Qed.

Lemma queen_moves_count_witness :
  exists l,
    calculateValidMoves QueenMovementStrategy 8 (sq "C3") = Some (Ok l)
    /\ Z.of_nat (List.length l) = 21 + 2 * edgeDistance (sq "C3")
    /\ 0 <= edgeDistance (sq "C3") <= 3.
Proof.
  apply (queen_moves_count 8 (sq "C3")); [apply le_n | reflexivity].
Defined.

(** ** The comparator of the sorter *)

Lemma compare_cases (a b : Position.t) (x y : Z) :
  Position._file a = [x] -> Position._file b = [y] ->
  (x < y /\ PositionSorter.compare a b = -1)
  \/ (y < x /\ PositionSorter.compare a b = 1)
  \/ (x = y /\ PositionSorter.compare a b
                = Position._rank a - Position._rank b).
Proof.
  intros Hx Hy.
  unfold PositionSorter.compare, Position.file, Position.rank.
  rewrite Hx, Hy, localeCompare_unit.
  destruct (x <? y) eqn:E1; [apply Z.ltb_lt in E1; left; auto |].
  destruct (y <? x) eqn:E2; [apply Z.ltb_lt in E2; right; left; auto |].
  apply Z.ltb_ge in E1, E2. right; right. split; [lia | reflexivity].
Qed.

(** X21: on squares with a file of one character the comparator given
    to the sort is consistent: it is zero exactly on equal squares,
    changes sign when its arguments are exchanged, and is transitive;
    so it is a total order, as the sort requires. *)
Theorem compare_consistent (a b c : Position.t) :
  oneLetter a -> oneLetter b -> oneLetter c ->
  (PositionSorter.compare a b = 0 <-> Position.equals a b = true)
  /\ (PositionSorter.compare a b < 0 <-> 0 < PositionSorter.compare b a)
  /\ (PositionSorter.compare a b <= 0 -> PositionSorter.compare b c <= 0 ->
      PositionSorter.compare a c <= 0).
Proof.
  intros [x Hx] [y Hy] [z Hz].
  pose proof (compare_cases a b x y Hx Hy) as Hab.
  pose proof (compare_cases b a y x Hy Hx) as Hba.
  pose proof (compare_cases b c y z Hy Hz) as Hbc.
  pose proof (compare_cases a c x z Hx Hz) as Hac.
  split; [| split; lia].
  rewrite equals_true_iff. split.
  - intros H0.
    assert (Hxy : x = y /\ Position._rank a = Position._rank b) by lia.
    destruct Hxy as [-> Hr].
    destruct a, b; cbn [Position._file Position._rank] in *. congruence.
  - intros ->. rewrite Hx in Hy. injection Hy as <-. lia.
Qed.

Lemma compare_consistent_witness :
  (PositionSorter.compare (sq "A2") (sq "B1") = 0
   <-> Position.equals (sq "A2") (sq "B1") = true)
  /\ (PositionSorter.compare (sq "A2") (sq "B1") < 0
      <-> 0 < PositionSorter.compare (sq "B1") (sq "A2"))
  /\ (PositionSorter.compare (sq "A2") (sq "B1") <= 0 ->
      PositionSorter.compare (sq "B1") (sq "B3") <= 0 ->
      PositionSorter.compare (sq "A2") (sq "B3") <= 0).
Proof.
  apply (compare_consistent (sq "A2") (sq "B1") (sq "B3"));
    eexists; reflexivity.
Defined.
